(** * Conclave: a shallow embedding of the papal-conclave simulation

    The development follows the three cooperating Python modules
    [cardinal.py], [round_results.py] and [conclave.py].

    - A Python [str] is a list of Unicode code points.
    - A Python [dict] whose iteration order is observed (the tally, the
      frontrunner set) is an association list in insertion order.
    - The results directory is a finite map from file names to the record
      stored in the file.
    - A raised exception is [None] in the option monad.
    - The oracle and the random generator are inputs: every turn is given
      the reply to its prompt (or the failure of the call) and the entropy
      that [random.choice] consumes.
    - A support ratio, a Python [float], is an exact rational;
      [floats_agree_upto_300] checks that binary64 decides the comparisons
      of the program in the same way for rosters of up to 300. *)

From Stdlib Require Import ZArith QArith List Ascii String DecimalString DecimalZ Lia.
From Stdlib Require Import PrimFloat.
From stdpp Require Import base option list gmap.

Local Open Scope Z_scope.

(** ** Python strings *)

(** A [str] is a sequence of code points. *)
Abbreviation str := (list N).

(** [u "text"] is the [str] with the code points of an ASCII literal. *)
Definition u (s : string) : str := N_of_ascii <$> list_ascii_of_string s.

(** Back to bytes, when every code point fits. *)
Definition to_ascii (c : N) : option ascii :=
  if (c <? 256)%N then Some (ascii_of_N c) else None.

Definition to_string (s : str) : option string :=
  string_of_list_ascii <$> mapM to_ascii s.

(** [str(n)] for an [int]: an optional minus sign and decimal digits. *)
Definition py_str_of_int (n : Z) : str :=
  u (NilZero.string_of_int (Z.to_int n)).

(** [int(s)] on the literals made of an optional sign followed by decimal
    digits; [None] is [ValueError].  (Python also accepts surrounding
    white space and non-ASCII digits, which [save_round_result] never
    writes; the underscore separator cannot occur after [split('_')].) *)
Definition py_int (s : str) : option Z :=
  match s with
  | 43%N :: digits =>
      t ← to_string digits;
      d ← NilZero.uint_of_string t;
      Some (Z.of_int (Decimal.Pos d))
  | _ =>
      t ← to_string s;
      d ← NilZero.int_of_string t;
      Some (Z.of_int d)
  end.

(** [s.split(sep)] for a one-character separator: never empty. *)
Fixpoint py_split_on (sep : N) (s : str) : list str :=
  match s with
  | [] => [[]]
  | c :: s' =>
      if decide (c = sep) then [] :: py_split_on sep s'
      else match py_split_on sep s' with
           | w :: ws => (c :: w) :: ws
           | [] => [[c]]
           end
  end.

(** [s.rfind(ch)]: index of the last occurrence, [None] for -1. *)
Fixpoint py_rfind (ch : N) (s : str) : option nat :=
  match s with
  | [] => None
  | c :: s' =>
      match py_rfind ch s' with
      | Some i => Some (S i)
      | None => if decide (c = ch) then Some 0%nat else None
      end
  end.

(** [PurePath.stem]: the name without its last suffix; a leading or a
    trailing dot starts no suffix. *)
Definition path_stem (name : str) : str :=
  match py_rfind 46%N name with
  | Some i =>
      if decide (0 < i < length name - 1)%nat then take i name else name
  | None => name
  end.

(** [s.startswith(p)] and [s.endswith(p)]. *)
Fixpoint startswith (p s : str) : bool :=
  match p, s with
  | [], _ => true
  | a :: p', b :: s' => bool_decide (a = b) && startswith p' s'
  | _ :: _, [] => false
  end.

Definition endswith (p s : str) : bool := startswith (rev p) (rev s).

(** ** Python dictionaries in insertion order *)

Section Dict.
Context {V : Type}.

(** [d.get(k)] *)
Fixpoint dict_get (d : list (str * V)) (k : str) : option V :=
  match d with
  | [] => None
  | (k', v) :: d' => if decide (k' = k) then Some v else dict_get d' k
  end.

(** [d[k] = v]: an existing key keeps its position, a new key goes last. *)
Fixpoint dict_set (d : list (str * V)) (k : str) (v : V) : list (str * V) :=
  match d with
  | [] => [(k, v)]
  | (k', v') :: d' =>
      if decide (k' = k) then (k', v) :: d' else (k', v') :: dict_set d' k v
  end.

Definition dict_keys (d : list (str * V)) : list str := d.*1.
Definition dict_values (d : list (str * V)) : list V := d.*2.
End Dict.

(** [sum(xs)] over integers. *)
Definition py_sum (xs : list Z) : Z := foldr Z.add 0 xs.

(** [max(xs, key=key)]: the first element whose key is not exceeded;
    [None] is the [ValueError] on an empty sequence. *)
Definition py_max_step {A K : Type} (ltb : K → K → bool) (key : A → K)
    (best y : A) : A :=
  if ltb (key best) (key y) then y else best.

Definition py_max {A K : Type} (ltb : K → K → bool) (key : A → K)
    (xs : list A) : option A :=
  match xs with
  | [] => None
  | x :: rest => Some (fold_left (py_max_step ltb key) rest x)
  end.

(** [random.choice(seq)]: [seq[randbelow(len(seq))]], with the draw taken
    from the entropy [r]; [None] is the [IndexError] on an empty sequence. *)
Definition random_choice {A : Type} (seq : list A) (r : nat) : option A :=
  match seq with
  | [] => None
  | _ => seq !! (r mod length seq)%nat
  end.

(** Support ratios are exact rationals; this is their strict comparison. *)
Definition Qltb (x y : Q) : bool := negb (Qle_bool y x).

(** The same ratios as Python computes them, in binary64.  An integer
    below [2^53] converts without rounding. *)
Fixpoint float_of_pos (p : positive) : float :=
  match p with
  | xH => 1%float
  | xO p' => (2 * float_of_pos p')%float
  | xI p' => (2 * float_of_pos p' + 1)%float
  end.

Definition float_of_int (z : Z) : float :=
  match z with
  | Z0 => 0%float
  | Zpos p => float_of_pos p
  | Zneg p => (- float_of_pos p)%float
  end.

(** [count / total_votes] and the test [ratio > 0.15] on floats. *)
Definition float_ratio (count total : Z) : float :=
  (float_of_int count / float_of_int total)%float.

Definition float_above_cutoff (count total : Z) : bool :=
  PrimFloat.ltb 0x1.3333333333333p-3%float (float_ratio count total).

(** For every total up to [n] and every count up to the total: the float
    test agrees with the rational one, and the float ratio grows strictly
    with the count. *)
Definition floats_agree_upto (n : nat) : bool :=
  forallb (λ t : nat,
    forallb (λ c : nat,
      Bool.eqb (float_above_cutoff (Z.of_nat c) (Z.of_nat t))
               (Qltb (15 # 100) (inject_Z (Z.of_nat c) / inject_Z (Z.of_nat t)))
      && PrimFloat.ltb (float_ratio (Z.of_nat c - 1) (Z.of_nat t))
                       (float_ratio (Z.of_nat c) (Z.of_nat t)))
      (seq 1 t))
    (seq 1 n).

(** ** Unicode data

    [unicodedata] and the [str] methods are library code outside the
    repository.  Their tables are the fields of [UnicodeData]; the
    algorithms built on the tables are written out below. *)

Class UnicodeData := {
  (** full compatibility decomposition of one code point *)
  uc_decomposition : N → str;
  (** [unicodedata.combining]: the canonical combining class, 0 for a starter *)
  uc_combining : N → N;
  (** [str.isspace] on one code point *)
  uc_isspace : N → bool;
  (** [str.lower] *)
  uc_lower : str → str;
}.

Section Normalization.
Context `{UnicodeData}.

(** Canonical ordering: a mark moves left past the marks of a strictly
    greater class; a starter (class 0) is never crossed. *)
Fixpoint reorder_insert (c : N) (placed : str) : str :=
  match placed with
  | d :: rest =>
      if ((0 <? uc_combining c) && (uc_combining c <? uc_combining d))%N
      then d :: reorder_insert c rest
      else c :: placed
  | [] => [c]
  end.

Definition canonical_order (s : str) : str :=
  rev (fold_left (λ placed c, reorder_insert c placed) s []).

(** [unicodedata.normalize('NFKD', s)] as the Unicode standard defines
    the form: every code point is replaced by its full decomposition and
    the marks are then put in canonical order. *)
Definition nfkd (s : str) : str :=
  canonical_order (s ≫= uc_decomposition).

(** [s.split()]: the maximal runs of non-space code points; [cur] is the
    current run, reversed. *)
Fixpoint py_split_go (cur : str) (s : str) : list str :=
  match s with
  | [] => match cur with [] => [] | _ => [rev cur] end
  | c :: s' =>
      if uc_isspace c
      then match cur with
           | [] => py_split_go [] s'
           | _ => rev cur :: py_split_go [] s'
           end
      else py_split_go (c :: cur) s'
  end.

Definition py_split (s : str) : list str := py_split_go [] s.

(** [' '.join(ws)] *)
Fixpoint py_join_space (ws : list str) : str :=
  match ws with
  | [] => []
  | [w] => w
  | w :: ws' => w ++ 32%N :: py_join_space ws'
  end.

(** [Conclave._normalize_name] *)
Definition normalize_name (name : str) : str :=
  let name := nfkd name in
  let name := filter (λ c, uc_combining c = 0%N) name in
  let name := py_join_space (py_split name) in
  uc_lower name.
End Normalization.

(** A small table for the examples: the decompositions of the no-break
    space and of a few accented Latin-1 letters, the combining marks
    U+0300, U+0301 and U+0308, the white space of Latin-1, and the lower
    case of the ASCII letters (the examples lower-case nothing else). *)
Definition sample_decomposition (c : N) : str :=
  match c with
  | 160 => [32] | 192 => [65; 768] | 193 => [65; 769] | 201 => [69; 769]
  | 224 => [97; 768] | 225 => [97; 769] | 233 => [101; 769]
  | 235 => [101; 776] | 243 => [111; 769] | 252 => [117; 776]
  | _ => [c]
  end%N.

Definition sample_combining (c : N) : N :=
  match c with 768 | 769 | 776 => 230 | _ => 0 end%N.

Definition sample_isspace (c : N) : bool :=
  match c with 9 | 10 | 11 | 12 | 13 | 28 | 29 | 30 | 31 | 32 | 133 | 160 => true
  | _ => false end%N.

Definition sample_lower_char (c : N) : N :=
  if ((65 <=? c) && (c <=? 90))%N then (c + 32)%N else c.

Definition sample_unicode : UnicodeData := {|
  uc_decomposition := sample_decomposition;
  uc_combining := sample_combining;
  uc_isspace := sample_isspace;
  uc_lower := fmap sample_lower_char;
|}.

(** ** Data model ([cardinal.py], [round_results.py]) *)

Record VotingRecord := {
  vr_round : Z;
  voted_for : str;
}.

(** [bio_file] and [voting_history_file] only locate the two fields loaded
    from them; the history snapshot that [save_vote] rewrites is never read
    back during a simulation. *)
Record Cardinal := {
  name : str;
  political_leaning : Q;
  bio : str;
  voting_history : list VotingRecord;
}.

Record RoundResult := {
  rr_round_number : Z;
  rr_votes : list (str * Z);
  rr_winner : option str;
}.

(** [Cardinal.save_vote], with the write of the snapshot succeeding. *)
Definition save_vote (c : Cardinal) (round_number : Z) (voted : str) : Cardinal :=
  {| name := name c;
     political_leaning := political_leaning c;
     bio := bio c;
     voting_history :=
       voting_history c ++ [{| vr_round := round_number; voted_for := voted |}] |}.

(** ** Round ledger ([round_results.py])

    The directory [results_dir] maps a file name to the [RoundResult] that
    [json.dump] wrote and [json.load] reads back. *)

Definition file_name (round_number : Z) : str :=
  u "round_" ++ py_str_of_int round_number ++ u "_results.json".

(** [RoundResults.save_round_result] *)
Definition save_round_result (r : RoundResult)
    (dir : gmap str RoundResult) : gmap str RoundResult :=
  <[file_name (rr_round_number r) := r]> dir.

(** [RoundResults.get_round_result] *)
Definition get_round_result (round_number : Z)
    (dir : gmap str RoundResult) : option RoundResult :=
  dir !! file_name round_number.

(** [Path.glob("round_*_results.json")] on one file name. *)
Definition glob_match (f : str) : bool :=
  startswith (u "round_") f && endswith (u "_results.json") f
  && bool_decide (length (u "round_") + length (u "_results.json") ≤ length f)%nat.

(** The sort key [int(p.stem.split('_')[1])]; [None] when it raises. *)
Definition round_key (f : str) : option Z :=
  part ← py_split_on 95%N (path_stem f) !! 1%nat;
  py_int part.

(** [RoundResults.get_latest_round_result] on a directory whose entries
    the file system lists in the order [listing].  The outer [None] is a
    raised exception, the inner one the returned [None]. *)
Definition get_latest_round_result_in (listing : list str)
    (dir : gmap str RoundResult) : option (option RoundResult) :=
  let result_files := filter (λ f, glob_match f = true) listing in
  match result_files with
  | [] => Some None
  | _ =>
      keyed ← mapM (λ f, k ← round_key f; Some (f, k)) result_files;
      latest_file ← py_max Z.ltb snd keyed;
      r ← dir !! latest_file.1;
      Some (Some r)
  end.

Definition get_latest_round_result (dir : gmap str RoundResult)
    : option (option RoundResult) :=
  get_latest_round_result_in (map_to_list dir).*1 dir.

(** ** Election coordinator ([conclave.py]) *)

Record Conclave := {
  cardinals : list Cardinal;
  round_number : Z;
  pope_elected : bool;
  winner : option str;
  frontrunners : list (str * Q);
  round_results : gmap str RoundResult;
}.

(** The pieces that [_get_voting_prompt] appends to the prompt, one
    constructor per formatted fragment, in the order of the [+=]. *)
Inductive PromptPart :=
  | PIntro (who biography : str) (leaning : Q) (round : Z)
  | PFrontrunner (who : str) (support : Q)
  | PNoFrontrunners
  | PPreviousHeader
  | PPreviousVotes (who : str) (votes : Z)
  | PPreviousVote (voted : str)
  | PEligibleHeader
  | PEligible (who : str)
  | PInstructions.

(** What the surroundings contribute to one cardinal's turn: the reply of
    [LLMConfig.get_completion] to the prompt ([None] when the call raises)
    and the entropy consumed by [random.choice]. *)
Record Turn := {
  completion : list PromptPart → option str;
  entropy : nat;
}.

(** [Conclave._update_frontrunners]; [None] is the [ZeroDivisionError]. *)
Definition update_frontrunners (votes : list (str * Z)) : option (list (str * Q)) :=
  let total_votes := py_sum (dict_values votes) in
  support_ratios ←
    mapM (λ '(who, count),
            if decide (total_votes = 0) then None
            else Some (who, inject_Z count / inject_Z total_votes)%Q) votes;
  Some (filter (λ '(_, ratio), Qltb (15 # 100) ratio = true) support_ratios).

(** The supermajority threshold [(len(self.cardinals) * 2 // 3) + 1]. *)
Definition required_votes (roster_size : Z) : Z :=
  (roster_size * 2) `div` 3 + 1.

(** The scan of [votes.items()] that stops at the first qualifying entry. *)
Fixpoint find_winner (required : Z) (votes : list (str * Z)) : option str :=
  match votes with
  | [] => None
  | (cardinal_name, vote_count) :: rest =>
      if vote_count >=? required then Some cardinal_name
      else find_winner required rest
  end.

Section Election.
Context `{UnicodeData}.

(** [Conclave._find_matching_cardinal] *)
Fixpoint find_matching_cardinal (cs : list Cardinal) (voted_name : str)
    : option str :=
  match cs with
  | [] => None
  | c :: cs' =>
      if decide (normalize_name (name c) = normalize_name voted_name)
      then Some (name c)
      else find_matching_cardinal cs' voted_name
  end.

(** [Conclave._get_voting_prompt] *)
Definition get_voting_prompt (self : Conclave) (c : Cardinal)
    (eligible_cardinals : list str) : list PromptPart :=
  let previous_round :=
    get_round_result (round_number self - 1) (round_results self) in
  [PIntro (name c) (bio c) (political_leaning c) (round_number self)]
  ++ match frontrunners self with
     | [] => [PNoFrontrunners]
     | fs => (λ '(who, support), PFrontrunner who support) <$> fs
     end
  ++ match previous_round with
     | Some previous =>
         PPreviousHeader
         :: ((λ '(who, votes), PPreviousVotes who votes) <$> rr_votes previous)
         ++ match last (voting_history c) with
            | Some last_vote => [PPreviousVote (voted_for last_vote)]
            | None => []
            end
     | None => []
     end
  ++ PEligibleHeader :: (PEligible <$> eligible_cardinals)
  ++ [PInstructions].

(** [votes[voted_for] = votes.get(voted_for, 0) + 1] *)
Definition count_vote (votes : list (str * Z)) (voted : str) : list (str * Z) :=
  dict_set votes voted (default 0 (dict_get votes voted) + 1).

(** The tally update followed by
    [cardinal.save_vote(self.round_number, voted_for)]. *)
Definition record_vote (self : Conclave) (c : Cardinal)
    (votes : list (str * Z)) (voted : str) : Cardinal * list (str * Z) :=
  (save_vote c (round_number self) voted, count_vote votes voted).

(** The vote substituted for a reply that names no eligible cardinal:
    the previous vote, else the leading frontrunner, else a random
    eligible cardinal. *)
Definition invalid_vote_fallback (self : Conclave)
    (eligible_cardinals : list str) (t : Turn) (c : Cardinal) : option str :=
  match last (voting_history c) with
  | Some last_vote => Some (voted_for last_vote)
  | None =>
      match frontrunners self with
      | [] => random_choice eligible_cardinals (entropy t)
      | fs => fst <$> py_max Qltb snd fs
      end
  end.

(** The body of the [try].  [matched] is an optional name, and
    [voted_for in eligible_cardinals] is false for [None]. *)
Definition vote_attempt (self : Conclave) (eligible_cardinals : list str)
    (t : Turn) (c : Cardinal) (votes : list (str * Z))
    : option (Cardinal * list (str * Z)) :=
  let prompt := get_voting_prompt self c eligible_cardinals in
  voted_for_raw ← completion t prompt;
  let matched := find_matching_cardinal (cardinals self) voted_for_raw in
  let fallback :=
    voted ← invalid_vote_fallback self eligible_cardinals t c;
    Some (record_vote self c votes voted) in
  match matched with
  | Some voted =>
      if decide (voted ∈ eligible_cardinals)
      then Some (record_vote self c votes voted)
      else fallback
  | None => fallback
  end.

(** The [except Exception] handler. *)
Definition vote_on_error (self : Conclave) (eligible_cardinals : list str)
    (t : Turn) (c : Cardinal) (votes : list (str * Z))
    : option (Cardinal * list (str * Z)) :=
  voted ←
    match last (voting_history c) with
    | Some last_vote => Some (voted_for last_vote)
    | None => random_choice eligible_cardinals (entropy t)
    end;
  Some (record_vote self c votes voted).

(** One iteration of the loop over [self.cardinals].  With the history
    write succeeding, the [try] raises only before it has changed the
    tally, so the handler starts from the tally it was given. *)
Definition vote_turn (self : Conclave) (eligible_cardinals : list str)
    (t : Turn) (c : Cardinal) (votes : list (str * Z))
    : option (Cardinal * list (str * Z)) :=
  match vote_attempt self eligible_cardinals t c votes with
  | Some done => Some done
  | None => vote_on_error self eligible_cardinals t c votes
  end.

(** [for idx, cardinal in enumerate(self.cardinals, 1)] *)
Fixpoint voting_loop (self : Conclave) (eligible_cardinals : list str)
    (turns : nat → Turn) (idx : nat) (cs : list Cardinal)
    (votes : list (str * Z)) : option (list Cardinal * list (str * Z)) :=
  match cs with
  | [] => Some ([], votes)
  | c :: cs' =>
      '(c', votes') ← vote_turn self eligible_cardinals (turns idx) c votes;
      '(cs'', votes'') ←
        voting_loop self eligible_cardinals turns (S idx) cs' votes';
      Some (c' :: cs'', votes'')
  end.

(** [self.round_number += 1] *)
Definition next_round (self : Conclave) : Conclave :=
  {| cardinals := cardinals self;
     round_number := round_number self + 1;
     pope_elected := pope_elected self;
     winner := winner self;
     frontrunners := frontrunners self;
     round_results := round_results self |}.

(** [Conclave.run_voting_round]: the new state and the returned tally. *)
Definition run_voting_round (turns : nat → Turn) (self : Conclave)
    : option (Conclave * list (str * Z)) :=
  let self := next_round self in
  let eligible_cardinals := name <$> cardinals self in
  '(cs, votes) ←
    voting_loop self eligible_cardinals turns 1 (cardinals self) [];
  let required_votes := required_votes (Z.of_nat (length cs)) in
  let found := find_winner required_votes votes in
  let round_result :=
    {| rr_round_number := round_number self;
       rr_votes := votes;
       rr_winner := found |} in
  let ledger := save_round_result round_result (round_results self) in
  new_frontrunners ← update_frontrunners votes;
  Some ({| cardinals := cs;
           round_number := round_number self;
           pope_elected := if found is Some _ then true else pope_elected self;
           winner := if found is Some _ then found else winner self;
           frontrunners := new_frontrunners;
           round_results := ledger |},
        votes).

(** [run_voting_round] called [n] times; [turns k] feeds the [k]-th call.
    The tallies are returned in the order of the calls. *)
Fixpoint run_rounds (turns : nat → nat → Turn) (start n : nat)
    (self : Conclave) : option (Conclave * list (list (str * Z))) :=
  match n with
  | O => Some (self, [])
  | S n' =>
      '(self', votes) ← run_voting_round (turns start) self;
      '(final, tallies) ← run_rounds turns (S start) n' self';
      Some (final, votes :: tallies)
  end.
End Election.

(** ** Sample inputs *)

(** [Conclave.__init__] on the cardinals loaded from the manifest and the
    results directory as it is found. *)
Definition init_conclave (cs : list Cardinal) (dir : gmap str RoundResult)
    : Conclave :=
  {| cardinals := cs;
     round_number := 0;
     pope_elected := false;
     winner := None;
     frontrunners := [];
     round_results := dir |}.

Definition cardinal_of (who : string) (history : list VotingRecord) : Cardinal :=
  {| name := u who;
     political_leaning := 0;
     bio := u "";
     voting_history := history |}.

(** An oracle whose every call raises, and one that always gives the same
    reply. *)
Definition oracle_fails : nat → Turn :=
  λ _, {| completion := λ _, None; entropy := 0 |}.

Definition oracle_says (reply : string) : nat → Turn :=
  λ _, {| completion := λ _, Some (u reply); entropy := 0 |}.

Definition outcome (n : Z) (votes : list (str * Z)) (w : option str)
    : RoundResult :=
  {| rr_round_number := n; rr_votes := votes; rr_winner := w |}.

(** Rounds 1 and 3 are stored, round 2 is not. *)
Definition ledger_1_3 : gmap str RoundResult :=
  save_round_result (outcome 3 [(u "A", 2); (u "B", 1)] None)
    (save_round_result (outcome 1 [(u "B", 3)] (Some (u "B"))) ∅).

(** A roster of three before the first round: no history, no frontrunner,
    an empty ledger. *)
Definition three_cardinals : Conclave :=
  init_conclave [cardinal_of "A" []; cardinal_of "B" []; cardinal_of "C" []] ∅.

(** The history of [A] was written when the roster still had [Zed]; [B]
    has voted for [A] before. *)
Definition stale_vote : VotingRecord := {| vr_round := 1; voted_for := u "Zed" |}.
Definition earlier_vote : VotingRecord := {| vr_round := 1; voted_for := u "A" |}.

Definition stale_conclave : Conclave :=
  init_conclave [cardinal_of "A" [stale_vote]; cardinal_of "B" [earlier_vote]] ∅.

(** [A] repeats its last vote when the oracle raises, although [B] is the
    only frontrunner. *)
Definition contested_conclave : Conclave :=
  {| cardinals := [cardinal_of "A" [earlier_vote]; cardinal_of "B" []];
     round_number := 1;
     pope_elected := false;
     winner := None;
     frontrunners := [(u "B", 1 # 1)];
     round_results := ∅ |}.

(** No history, three frontrunners, two of them level at the top. *)
Definition undecided_conclave : Conclave :=
  {| cardinals := [cardinal_of "A" []; cardinal_of "B" []; cardinal_of "C" []];
     round_number := 1;
     pope_elected := false;
     winner := None;
     frontrunners := [(u "A", 2 # 10); (u "B", 4 # 10); (u "C", 4 # 10)];
     round_results := ∅ |}.

(** In the second round the ledger has the outcome of the first. *)
Definition second_round : Conclave :=
  {| cardinals := [cardinal_of "A" [earlier_vote]; cardinal_of "B" [earlier_vote]];
     round_number := 2;
     pope_elected := false;
     winner := None;
     frontrunners := [(u "A", 2 # 2)];
     round_results := save_round_result (outcome 1 [(u "A", 2)] None) ∅ |}.

(** ** The rest of the coordinator and of the profile store *)

Section Simulation.
Context `{UnicodeData}.

(** The [while] loop of [Conclave.run_simulation].  Every iteration
    raises the round number by one, so [fuel] iterations are all the loop
    can make when [fuel] is the distance to [max_rounds]; [None] is a
    raised exception (or the fuel running out). *)
Fixpoint simulation_loop (fuel : nat) (turns : nat → nat → Turn) (k : nat)
    (max_rounds : Z) (self : Conclave) : option Conclave :=
  if negb (pope_elected self) && (round_number self <? max_rounds)
  then match fuel with
       | O => None
       | S fuel' =>
           '(self', _) ← run_voting_round (turns k) self;
           simulation_loop fuel' turns (S k) max_rounds self'
       end
  else Some self.

(** [Conclave.run_simulation]: the final state and the returned
    [self.winner]. *)
Definition run_simulation (turns : nat → nat → Turn) (max_rounds : Z)
    (self : Conclave) : option (Conclave * option str) :=
  final ← simulation_loop (Z.to_nat (max_rounds - round_number self)) turns 0
             max_rounds self;
  Some (final, winner final).
End Simulation.

(** What a file of the profile store holds: the text that [read] returns
    when the file is opened in text mode with the utf-8 codec, or bytes
    that this codec rejects. *)
Inductive FileContent :=
  | Utf8 (text : str)
  | NotUtf8.

(** The files, each under the file that its path names. *)
Abbreviation Disk := (gmap str FileContent).

(** What the platform does for the profile store.  [locate] is the file
    that a path names (two spellings can name one file).  [json_dump] is
    [json.dump] of the dumped records, and [json_load] is [json.load]
    followed by the construction of a record from every item, [None] when
    either raises; what was dumped is loaded back. *)
Class Storage := {
  locate : str → str;
  json_dump : list VotingRecord → str;
  json_load : str → option (list VotingRecord);
  json_load_dump : ∀ records, json_load (json_dump records) = Some records;
}.

(** One entry of the roster manifest [cardinals.json]. *)
Record ManifestEntry := {
  me_name : str;
  me_bio_file : str;
  me_voting_history_file : str;
  me_political_leaning : Q;
}.

Section ProfileStore.
Context `{Storage}.

(** [Cardinal._load_bio]; [None] is the [FileNotFoundError] or the
    [UnicodeDecodeError]. *)
Definition load_bio (bio_file : str) (disk : Disk) : option str :=
  match disk !! locate bio_file with
  | Some (Utf8 text) => Some text
  | Some NotUtf8 => None
  | None => None
  end.

(** [Cardinal._load_voting_history]: a missing file is an empty history,
    and a file that is there is parsed, which can raise. *)
Definition load_voting_history (voting_history_file : str) (disk : Disk)
    : option (list VotingRecord) :=
  match disk !! locate voting_history_file with
  | None => Some []
  | Some (Utf8 text) => json_load text
  | Some NotUtf8 => None
  end.

(** The construction of a [Cardinal] with its [model_post_init]. *)
Definition load_cardinal (entry : ManifestEntry) (disk : Disk) : option Cardinal :=
  text ← load_bio (me_bio_file entry) disk;
  records ← load_voting_history (me_voting_history_file entry) disk;
  Some {| name := me_name entry;
          political_leaning := me_political_leaning entry;
          bio := text;
          voting_history := records |}.

(** [Conclave._load_cardinals] on the parsed manifest. *)
Definition load_cardinals (manifest : list ManifestEntry) (disk : Disk)
    : option (list Cardinal) :=
  mapM (λ entry, load_cardinal entry disk) manifest.

(** [Cardinal.save_vote] with its file: the record is appended in memory
    and the whole history is dumped over [voting_history_file]. *)
Definition save_vote_to (voting_history_file : str) (c : Cardinal)
    (round_number : Z) (voted : str) (disk : Disk) : Cardinal * Disk :=
  let c' := save_vote c round_number voted in
  (c', <[locate voting_history_file := Utf8 (json_dump (voting_history c'))]>
         disk).
End ProfileStore.

(** A platform for the examples: every path names its own file, and a
    history is dumped as one code point for each record. *)
Definition sample_json_dump (records : list VotingRecord) : str :=
  (λ r, Npos (encode (vr_round r, voted_for r))) <$> records.

Definition sample_json_load (text : str) : option (list VotingRecord) :=
  mapM (λ n, match n with
             | N0 => None
             | Npos p =>
                 (λ '(r, v), {| vr_round := r; voted_for := v |}) <$> decode p
             end) text.

Definition sample_storage : Storage.
Proof.
  refine {| locate := id;
            json_dump := sample_json_dump;
            json_load := sample_json_load |}.
  intros records. unfold sample_json_load, sample_json_dump.
  apply mapM_Some_2, Forall2_fmap_l, Forall_Forall2_diag, Forall_forall.
  intros [r v] _. cbn. by rewrite decode_encode.
Defined.

(** * Vocabulary of the properties *)

(** The code points [str(n)] is made of: the minus sign and the digits. *)
Definition int_char (c : N) : Prop := c = 45%N ∨ (48 ≤ c ≤ 57)%N.

(** Every file of the directory was written by [save_round_result]. *)
Definition ledger_written (dir : gmap str RoundResult) : Prop :=
  ∀ f r, dir !! f = Some r → f = file_name (rr_round_number r).

(** A tally has one entry per candidate, each with at least one vote. *)
Definition tally_ok (votes : list (str * Z)) : Prop :=
  NoDup (dict_keys votes) ∧ Forall (λ p, 1 ≤ p.2) votes.

Section NormalizationVocabulary.
Context `{UnicodeData}.

(** The code points that survive the removal of combining marks. *)
Definition stripped (s : str) : str :=
  filter (λ c, uc_combining c = 0%N) (s ≫= uc_decomposition).

Definition marks (s : str) : Prop := Forall (λ d, uc_combining d ≠ 0%N) s.

(** A white-space code point: its decomposition is a non-empty run of
    white-space starters. *)
Definition blank (w : N) : Prop :=
  uc_decomposition w ≠ []
  ∧ Forall (λ d, uc_isspace d = true ∧ uc_combining d = 0%N) (uc_decomposition w).

(** The variants of a name: a combining mark added anywhere, a letter
    replaced by an accented form of it, a white-space run made longer. *)
Inductive variant : str → str → Prop :=
  | variant_same s : variant s s
  | variant_mark a m b :
      marks (uc_decomposition m) → variant (a ++ b) (a ++ m :: b)
  | variant_accent a base x extra b :
      uc_decomposition x = uc_decomposition base ++ extra → marks extra →
      variant (a ++ base :: b) (a ++ x :: b)
  | variant_blank a w w' b :
      blank w → blank w' → variant (a ++ w :: b) (a ++ w :: w' :: b)
  | variant_step s1 s2 s3 : variant s1 s2 → variant s2 s3 → variant s1 s3.

End NormalizationVocabulary.

(** The votes a cardinal carries into the round are names of the roster. *)
Definition history_within (eligible : list str) (c : Cardinal) : Prop :=
  ∀ rec, last (voting_history c) = Some rec → voted_for rec ∈ eligible.

Definition frontrunners_within (eligible : list str) (self : Conclave) : Prop :=
  ∀ p, p ∈ frontrunners self → p.1 ∈ eligible.

#[local] Instance Qlt_dec : RelDecision Qlt.
Proof.
  intros x y. destruct (Qlt_le_dec x y) as [Hlt|Hle]; [by left|right].
  by apply Qle_not_lt.
Defined.

(** The frontrunner set in the words of the specification: the support
    ratio [count / rosterSize] of every candidate with at least one vote,
    kept when strictly greater than 0.15. *)
Definition spec_frontrunners (roster_size : Z) (tally : list (str * Z))
    : list (str * Q) :=
  filter (λ p, (15 # 100 < p.2)%Q)
    ((λ p, (p.1, inject_Z p.2 / inject_Z roster_size)%Q)
       <$> filter (λ p, 1 ≤ p.2) tally).

(** The outcome that a round persists, from the tally it collected. *)
Definition outcome_of (self : Conclave) (votes : list (str * Z)) : RoundResult :=
  {| rr_round_number := round_number self + 1;
     rr_votes := votes;
     rr_winner :=
       find_winner (required_votes (Z.of_nat (length (cardinals self)))) votes |}.

(** The layered policy for a reply that names no eligible cardinal. *)
Definition layered_choice (self : Conclave) (eligible : list str) (t : Turn)
    (c : Cardinal) (v : str) : Prop :=
  match last (voting_history c) with
  | Some rec => v = voted_for rec
  | None =>
      match frontrunners self with
      | [] => eligible !! (entropy t mod length eligible)%nat = Some v
      | fs =>
          ∃ before ratio after,
            fs = before ++ (v, ratio) :: after
            ∧ Forall (λ p, (p.2 < ratio)%Q) before
            ∧ Forall (λ p, (p.2 <= ratio)%Q) after
      end
  end.

(** The number of occurrences of [k] in a list of votes. *)
Definition occurrences (k : str) (vs : list str) : Z :=
  Z.of_nat (length (filter (λ v, v = k) vs)).

(** Decides a closed proposition by evaluation. *)
(** A code point that occurs in no text that [int] accepts: visible ASCII
    other than a digit, a sign or an underscore. *)
Definition never_in_int (ch : N) : Prop :=
  (33 ≤ ch ≤ 126)%N ∧ ¬ (48 ≤ ch ≤ 57)%N
  ∧ ch ≠ 43%N ∧ ch ≠ 45%N ∧ ch ≠ 95%N.

(** A text on which [int] raises whatever white space and digits it
    accepts: the empty text, or one with such a code point. *)
Definition not_an_int (field : str) : Prop :=
  field = [] ∨ ∃ ch, ch ∈ field ∧ never_in_int ch.

Ltac by_evaluation := apply (bool_decide_unpack _); vm_compute; exact I.

(** Closes a membership goal once every alternative is a hypothesis. *)
Ltac close_membership :=
  try match goal with
      | H : _ ∈ [] |- _ => by apply elem_of_nil in H
      end;
  try done; try tauto; try congruence.

(** * Properties *)

(** ** Decimal file names *)

Lemma to_ascii_of_ascii (a : ascii) : to_ascii (N_of_ascii a) = Some a.
Proof.
  unfold to_ascii. pose proof (N_ascii_bounded a).
  destruct (N.ltb_spec (N_of_ascii a) 256); [|lia].
  by rewrite ascii_N_embedding.
Qed.

Lemma to_string_u (s : string) : to_string (u s) = Some s.
Proof.
  unfold to_string, u.
  rewrite (mapM_fmap_Some _ _ _ to_ascii_of_ascii). cbn.
  by rewrite string_of_list_ascii_of_string.
Qed.

Lemma uint_chars (d : Decimal.uint) :
  Forall (λ c, (48 ≤ c ≤ 57)%N) (u (NilEmpty.string_of_uint d)).
Proof.
  induction d; cbn; try (apply Forall_nil; done);
    (apply Forall_cons; split; [cbn; lia | exact IHd]).
Qed.

Lemma py_str_of_int_chars (n : Z) : Forall int_char (py_str_of_int n).
Proof.
  unfold py_str_of_int.
  assert (Hu : ∀ d, Forall int_char (u (NilZero.string_of_uint d))).
  { intros d. eapply Forall_impl; [|intros c Hc; right; exact Hc].
    destruct d; try apply uint_chars.
    cbn. apply Forall_cons. split; [lia | apply Forall_nil; done]. }
  destruct (Z.to_int n) as [d|d]; cbn [NilZero.string_of_int].
  - apply Hu.
  - change (u (String "-" (NilZero.string_of_uint d)))
      with (45%N :: u (NilZero.string_of_uint d)).
    apply Forall_cons. split; [by left | apply Hu].
Qed.

Lemma py_str_of_int_no (c : N) (n : Z) :
  ¬ int_char c → c ∉ py_str_of_int n.
Proof.
  intros Hc Hin. pose proof (py_str_of_int_chars n) as Hall.
  rewrite Forall_forall in Hall. by apply Hc, Hall.
Qed.

Lemma to_int_nonnil (n : Z) :
  Z.to_int n ≠ Decimal.Pos Decimal.Nil ∧ Z.to_int n ≠ Decimal.Neg Decimal.Nil.
Proof.
  destruct n as [|p|p]; cbn; split; try discriminate;
    intros [= Hp]; by apply (DecimalPos.Unsigned.to_uint_nonnil p).
Qed.

(** Reading back the number that was printed. *)
Lemma py_int_of_str (n : Z) : py_int (py_str_of_int n) = Some n.
Proof.
  pose proof (py_str_of_int_chars n) as Hall.
  unfold py_int. destruct (py_str_of_int n) as [|c rest] eqn:Heq.
  - exfalso. unfold py_str_of_int in Heq.
    destruct (Z.to_int n) as [d|d]; [destruct d|]; discriminate.
  - assert (c ≠ 43%N) as Hc.
    { apply Forall_cons in Hall as [[->| ?] _]; [done | lia]. }
    assert (Hgo : (t ← to_string (c :: rest);
                   d ← NilZero.int_of_string t; Some (Z.of_int d)) = Some n).
    { rewrite <- Heq. unfold py_str_of_int. rewrite to_string_u. cbn.
      destruct (to_int_nonnil n) as [H1 H2].
      rewrite NilZero.isi by done. cbn. by rewrite DecimalZ.of_to. }
    destruct c as [|p]; [exact Hgo|].
    do 6 (destruct p as [p|p|]; try exact Hgo). done.
Qed.

Lemma py_str_of_int_inj (m n : Z) : py_str_of_int m = py_str_of_int n → m = n.
Proof.
  intros Heq. pose proof (py_int_of_str m) as Hm.
  rewrite Heq, py_int_of_str in Hm. congruence.
Qed.

(** Splitting, searching and matching on strings built by concatenation. *)
Lemma py_split_on_none (sep : N) (s : str) :
  sep ∉ s → py_split_on sep s = [s].
Proof.
  induction s as [|c s IH]; [done|]. intros Hn.
  apply not_elem_of_cons in Hn as [Hc Hs]. cbn.
  destruct (decide (c = sep)); [congruence|]. by rewrite IH.
Qed.

Lemma py_split_on_app (sep : N) (a rest : str) :
  sep ∉ a → py_split_on sep (a ++ sep :: rest) = a :: py_split_on sep rest.
Proof.
  induction a as [|c a IH]; intros Hn.
  - cbn. by destruct (decide (sep = sep)).
  - apply not_elem_of_cons in Hn as [Hc Hs]. cbn.
    destruct (decide (c = sep)); [congruence|]. by rewrite IH.
Qed.

Lemma py_rfind_none (ch : N) (s : str) : ch ∉ s → py_rfind ch s = None.
Proof.
  induction s as [|c s IH]; [done|]. intros Hn.
  apply not_elem_of_cons in Hn as [Hc Hs]. cbn. rewrite IH by done.
  destruct (decide (c = ch)); congruence.
Qed.

Lemma py_rfind_app (ch : N) (a rest : str) :
  ch ∉ rest → py_rfind ch (a ++ ch :: rest) = Some (length a).
Proof.
  intros Hn. induction a as [|c a IH].
  - cbn. rewrite py_rfind_none by done. by destruct (decide (ch = ch)).
  - cbn. by rewrite IH.
Qed.

Lemma startswith_app (p s : str) : startswith p (p ++ s) = true.
Proof.
  induction p as [|a p IH]; [done|]. cbn. rewrite IH.
  by rewrite bool_decide_eq_true_2.
Qed.

Lemma endswith_app (p s : str) : endswith p (s ++ p) = true.
Proof. unfold endswith. rewrite rev_app_distr. apply startswith_app. Qed.

Lemma glob_match_file_name (n : Z) : glob_match (file_name n) = true.
Proof.
  unfold glob_match, file_name.
  rewrite startswith_app. rewrite app_assoc, endswith_app.
  rewrite <- app_assoc, !length_app. cbn [andb].
  apply bool_decide_eq_true_2. lia.
Qed.

Lemma path_stem_file_name (n : Z) :
  path_stem (file_name n) = u "round_" ++ py_str_of_int n ++ u "_results".
Proof.
  unfold path_stem, file_name.
  change (u "_results.json") with (u "_results" ++ 46%N :: u "json").
  rewrite !app_assoc.
  rewrite py_rfind_app by by_evaluation.
  rewrite decide_True.
  - by rewrite take_app_length.
  - rewrite !length_app. cbn. lia.
Qed.

Lemma round_key_file_name (n : Z) : round_key (file_name n) = Some n.
Proof.
  unfold round_key. rewrite path_stem_file_name.
  change (u "round_") with (u "round" ++ [95%N]).
  change (u "_results") with (95%N :: u "results").
  rewrite <- app_assoc. cbn [app].
  rewrite py_split_on_app by by_evaluation.
  rewrite py_split_on_app
    by (apply py_str_of_int_no; unfold int_char; lia).
  cbn. apply py_int_of_str.
Qed.

Lemma file_name_inj (m n : Z) : file_name m = file_name n → m = n.
Proof.
  intros Heq. pose proof (round_key_file_name m) as Hm.
  rewrite Heq, round_key_file_name in Hm. congruence.
Qed.

(** ** [max] with a key *)

Section PyMax.
Context {A K : Type} (ltb : K → K → bool) (key : A → K).
Hypothesis ltb_trans :
  ∀ a b c, ltb a b = true → ltb b c = true → ltb a c = true.
Hypothesis ltb_le_lt :
  ∀ a b c, ltb b a = false → ltb b c = true → ltb a c = true.

Lemma py_max_scan (rest pre later : list A) (best : A) :
  Forall (λ y, ltb (key y) (key best) = true) pre →
  Forall (λ y, ltb (key best) (key y) = false) later →
  ∃ l1 l2,
    pre ++ best :: later ++ rest = l1 ++ fold_left (py_max_step ltb key) rest best :: l2
    ∧ Forall (λ y, ltb (key y) (key (fold_left (py_max_step ltb key) rest best)) = true) l1
    ∧ Forall (λ y, ltb (key (fold_left (py_max_step ltb key) rest best)) (key y) = false) l2.
Proof.
  revert pre later best.
  induction rest as [|y rest IH]; intros pre later best Hpre Hlater.
  - exists pre, later. by rewrite app_nil_r.
  - cbn [fold_left]. unfold py_max_step at 2 4 6.
    destruct (ltb (key best) (key y)) eqn:Hlt.
    + destruct (IH (pre ++ best :: later) [] y) as (l1 & l2 & Heq & H1 & H2).
      * apply Forall_app. split; [|apply Forall_cons; split; [done|]].
        -- eapply Forall_impl; [exact Hpre|]. cbn. eauto.
        -- eapply Forall_impl; [exact Hlater|]. cbn. eauto.
      * apply Forall_nil. done.
      * exists l1, l2. split; [|done]. rewrite <- Heq.
        by rewrite <- !app_assoc.
    + destruct (IH pre (later ++ [y]) best) as (l1 & l2 & Heq & H1 & H2).
      * done.
      * apply Forall_app. split; [done|]. by apply Forall_singleton.
      * exists l1, l2. split; [|done]. rewrite <- Heq.
        by rewrite <- !app_assoc.
Qed.

(** [max] returns the first element among those with the greatest key. *)
Lemma py_max_first (xs : list A) (x : A) :
  py_max ltb key xs = Some x →
  ∃ l1 l2, xs = l1 ++ x :: l2
    ∧ Forall (λ y, ltb (key y) (key x) = true) l1
    ∧ Forall (λ y, ltb (key x) (key y) = false) l2.
Proof.
  destruct xs as [|x0 rest]; [done|]. cbn. intros [= <-].
  destruct (py_max_scan rest [] [] x0) as (l1 & l2 & Heq & H1 & H2);
    [by apply Forall_nil | by apply Forall_nil |].
  exists l1, l2. done.
Qed.

Lemma py_max_is_Some (xs : list A) : xs ≠ [] → is_Some (py_max ltb key xs).
Proof. destruct xs; [done|]. cbn. eauto. Qed.
End PyMax.

Lemma Qltb_lt (x y : Q) : Qltb x y = true ↔ (x < y)%Q.
Proof.
  unfold Qltb. rewrite negb_true_iff.
  destruct (Qle_bool y x) eqn:Hle.
  - apply Qle_bool_iff in Hle. split; [done|]. intros Hlt.
    exfalso. by apply (Qlt_not_le x y).
  - split; [|done]. intros _. apply Qnot_le_lt. intros Hle'.
    apply Qle_bool_iff in Hle'. congruence.
Qed.

Lemma Qltb_ge (x y : Q) : Qltb x y = false ↔ (y <= x)%Q.
Proof.
  unfold Qltb. rewrite negb_false_iff. apply Qle_bool_iff.
Qed.

Lemma Qltb_trans (a b c : Q) :
  Qltb a b = true → Qltb b c = true → Qltb a c = true.
Proof. rewrite !Qltb_lt. apply Qlt_trans. Qed.

Lemma Qltb_le_lt (a b c : Q) :
  Qltb b a = false → Qltb b c = true → Qltb a c = true.
Proof. rewrite Qltb_ge, !Qltb_lt. apply Qle_lt_trans. Qed.

(** ** The round ledger *)

Lemma ledger_written_empty : ledger_written ∅.
Proof. intros f r. by rewrite lookup_empty. Qed.

Lemma ledger_written_save (r : RoundResult) (dir : gmap str RoundResult) :
  ledger_written dir → ledger_written (save_round_result r dir).
Proof.
  intros Hw f r'. unfold save_round_result.
  destruct (decide (file_name (rr_round_number r) = f)) as [<-|Hne].
  - rewrite lookup_insert_eq. by intros [= <-].
  - rewrite lookup_insert_ne by done. apply Hw.
Qed.

Lemma get_after_save (r : RoundResult) (dir : gmap str RoundResult) :
  get_round_result (rr_round_number r) (save_round_result r dir) = Some r.
Proof. apply lookup_insert_eq. Qed.

Lemma get_after_other_save (r : RoundResult) (dir : gmap str RoundResult) (k : Z) :
  k ≠ rr_round_number r →
  get_round_result k (save_round_result r dir) = get_round_result k dir.
Proof.
  intros Hne. apply lookup_insert_ne. intros Heq.
  by apply file_name_inj in Heq.
Qed.

Lemma get_never_saved (rs : list RoundResult) (k : Z) :
  k ∉ rr_round_number <$> rs →
  get_round_result k (foldr save_round_result ∅ rs) = None.
Proof.
  induction rs as [|r rs IH]; intros Hk.
  - apply lookup_empty.
  - cbn in Hk. apply not_elem_of_cons in Hk as [Hne Hk].
    cbn [foldr]. rewrite get_after_other_save by done. by apply IH.
Qed.

Lemma filter_all {A} (P : A → Prop) `{∀ x, Decision (P x)} (l : list A) :
  Forall P l → filter P l = l.
Proof.
  induction 1 as [|x l Hx _ IH]; [done|].
  rewrite filter_cons_True by done. by rewrite IH.
Qed.

Lemma listing_lookup (dir : gmap str RoundResult) (listing : list str) (f : str) :
  listing ≡ₚ (map_to_list dir).*1 → f ∈ listing ↔ is_Some (dir !! f).
Proof.
  intros Hp. rewrite Hp, list_elem_of_fmap. split.
  - intros ([f' r] & -> & Hin). apply elem_of_map_to_list in Hin. eauto.
  - intros [r Hr]. exists (f, r). split; [done|]. by apply elem_of_map_to_list.
Qed.

(** What [get_latest_round_result] returns on a ledger written by
    [save_round_result], whatever the order of the directory listing. *)
Lemma get_latest_spec (dir : gmap str RoundResult) (listing : list str) :
  ledger_written dir →
  listing ≡ₚ (map_to_list dir).*1 →
  (dir = ∅ → get_latest_round_result_in listing dir = Some None)
  ∧ (dir ≠ ∅ →
     ∃ r, get_latest_round_result_in listing dir = Some (Some r)
          ∧ get_round_result (rr_round_number r) dir = Some r
          ∧ ∀ f r', dir !! f = Some r' → rr_round_number r' ≤ rr_round_number r).
Proof.
  intros Hw Hp.
  assert (Hall : Forall (λ f, ∃ r, dir !! f = Some r
                               ∧ f = file_name (rr_round_number r)) listing).
  { apply Forall_forall. intros f Hf.
    apply (listing_lookup dir listing f Hp) in Hf as [r Hr]. eauto. }
  assert (Hglob : filter (λ f, glob_match f = true) listing = listing).
  { apply filter_all. eapply Forall_impl; [exact Hall|].
    intros f (r & _ & ->). apply glob_match_file_name. }
  set (g := λ f : str, (f, default 0 (round_key f))).
  assert (Hkeys : mapM (λ f, k ← round_key f; Some (f, k)) listing
                  = Some (g <$> listing)).
  { apply mapM_Some_2, Forall2_fmap_r, Forall_Forall2_diag.
    eapply Forall_impl; [exact Hall|].
    intros f (r & _ & ->). unfold g, compose. cbv beta. rewrite !round_key_file_name. done. }
  unfold get_latest_round_result_in. rewrite Hglob. split.
  - intros ->. rewrite map_to_list_empty in Hp.
    by apply Permutation_nil_r in Hp as ->.
  - intros Hne.
    assert (Hl : listing ≠ []).
    { intros ->. apply Hne, map_to_list_empty_iff.
      symmetry in Hp. apply Permutation_nil_r in Hp.
      by apply fmap_nil_inv in Hp. }
    destruct (py_max_is_Some Z.ltb (@snd str Z) (g <$> listing)) as [x Hx].
    { by destruct listing. }
    assert (Hrun : match listing with
                   | [] => Some None
                   | _ =>
                       keyed ← mapM (λ f, k ← round_key f; Some (f, k)) listing;
                       latest_file ← py_max Z.ltb snd keyed;
                       r ← dir !! latest_file.1;
                       Some (Some r)
                   end = (r ← dir !! x.1; Some (Some r))).
    { destruct listing; [done|]. rewrite Hkeys. cbn [mbind option_bind].
      by rewrite Hx. }
    rewrite Hrun. clear Hrun.
    destruct (py_max_first Z.ltb (@snd str Z)) with (xs := g <$> listing) (x := x)
      as (l1 & l2 & Heq & H1 & H2); [lia | lia | done |].
    assert (Hxin : x ∈ g <$> listing) by (rewrite Heq; set_solver).
    apply list_elem_of_fmap in Hxin as (f & -> & Hf).
    rewrite Forall_forall in Hall.
    destruct (Hall f Hf) as (r & Hr & Hname).
    unfold g at 1. cbn [fst]. rewrite Hr. cbn [mbind option_bind].
    exists r. split; [done|]. split.
    { unfold get_round_result. by rewrite <- Hname. }
    intros f' r' Hr'.
    assert (Hf' : f' ∈ listing).
    { apply (listing_lookup dir listing f' Hp). eauto. }
    assert (Hkey : ∀ h s, dir !! h = Some s → snd (g h) = rr_round_number s).
    { intros h s Hs. unfold g. cbn. rewrite (Hw h s Hs) at 1.
      by rewrite round_key_file_name. }
    assert (Hg : g f' ∈ l1 ++ g f :: l2).
    { rewrite <- Heq. by apply list_elem_of_fmap_2. }
    rewrite <- (Hkey f' r' Hr'), <- (Hkey f r Hr).
    rewrite Forall_forall in H1. rewrite Forall_forall in H2.
    apply elem_of_app in Hg as [Hg|Hg].
    + specialize (H1 _ Hg). lia.
    + apply elem_of_cons in Hg as [->|Hg]; [lia|].
      specialize (H2 _ Hg). lia.
Qed.

(** ** The tally *)

Lemma dict_set_sum (d : list (str * Z)) (k : str) (v : Z) :
  py_sum (dict_values (dict_set d k v))
  = py_sum (dict_values d) - default 0 (dict_get d k) + v.
Proof.
  unfold dict_values. induction d as [|[k' v'] d IH]; csimpl; [lia|].
  destruct (decide (k' = k)); csimpl; [lia|]. rewrite IH. lia.
Qed.

Lemma count_vote_sum (votes : list (str * Z)) (voted : str) :
  py_sum (dict_values (count_vote votes voted)) = py_sum (dict_values votes) + 1.
Proof. unfold count_vote. rewrite dict_set_sum. lia. Qed.

Lemma dict_set_keys_present {V} (d : list (str * V)) (k : str) (v : V) :
  k ∈ dict_keys d → dict_keys (dict_set d k v) = dict_keys d.
Proof.
  unfold dict_keys.
  induction d as [|[k' v'] d IH]; csimpl; [by intros ?%elem_of_nil|].
  destruct (decide (k' = k)) as [->|Hne]; [done|].
  intros [?|Hin]%elem_of_cons; [congruence|]. csimpl. by rewrite IH.
Qed.

Lemma dict_set_keys_absent {V} (d : list (str * V)) (k : str) (v : V) :
  k ∉ dict_keys d → dict_keys (dict_set d k v) = dict_keys d ++ [k].
Proof.
  unfold dict_keys.
  induction d as [|[k' v'] d IH]; csimpl; [done|].
  intros [Hne Hin]%not_elem_of_cons.
  destruct (decide (k' = k)); [congruence|]. csimpl. by rewrite IH.
Qed.

Lemma count_vote_keys (votes : list (str * Z)) (voted x : str) :
  x ∈ dict_keys (count_vote votes voted) ↔ x = voted ∨ x ∈ dict_keys votes.
Proof.
  unfold count_vote. destruct (decide (voted ∈ dict_keys votes)) as [Hin|Hout].
  - rewrite dict_set_keys_present by done. split; [by right|].
    by intros [->|?].
  - rewrite dict_set_keys_absent by done.
    rewrite elem_of_app, list_elem_of_singleton. tauto.
Qed.

Lemma tally_ok_nil : tally_ok [].
Proof. split; [apply NoDup_nil_2 | apply Forall_nil; done]. Qed.

Lemma dict_get_ge_1 (votes : list (str * Z)) (k : str) :
  Forall (λ p, 1 ≤ p.2) votes → 1 ≤ default 0 (dict_get votes k) + 1.
Proof.
  induction 1 as [|[k' v] votes Hv _ IH]; cbn; [lia|].
  destruct (decide (k' = k)); cbn in *; lia.
Qed.

Lemma dict_set_values {V} (P : V → Prop) (d : list (str * V)) (k : str) (v : V) :
  P v → Forall (λ p, P p.2) d → Forall (λ p, P p.2) (dict_set d k v).
Proof.
  intros Hv. induction 1 as [|[k' v'] d Hp Hd IH]; cbn.
  - by apply Forall_singleton.
  - destruct (decide (k' = k)); apply Forall_cons; split; done.
Qed.

Lemma count_vote_ok (votes : list (str * Z)) (voted : str) :
  tally_ok votes → tally_ok (count_vote votes voted).
Proof.
  intros [Hnd Hpos]. split.
  - unfold count_vote. destruct (decide (voted ∈ dict_keys votes)) as [Hin|Hout].
    + by rewrite dict_set_keys_present.
    + rewrite dict_set_keys_absent by done.
      apply NoDup_app. split; [done|]. split; [|apply NoDup_singleton].
      intros x Hx ->%list_elem_of_singleton. done.
  - unfold count_vote.
    apply (dict_set_values (λ v, 1 ≤ v)); [by apply dict_get_ge_1 | done].
Qed.

Lemma dict_get_entry {V} (d : list (str * V)) (k : str) (v : V) :
  NoDup (dict_keys d) → (k, v) ∈ d → dict_get d k = Some v.
Proof.
  induction d as [|[k' v'] d IH]; cbn; [by intros _ ?%elem_of_nil|].
  intros [Hk Hnd]%NoDup_cons [[= -> ->]|Hin]%elem_of_cons.
  - by rewrite decide_True.
  - destruct (decide (k' = k)) as [->|Hne]; [|by apply IH].
    exfalso. apply Hk. apply list_elem_of_fmap. by exists (k, v).
Qed.

Lemma tally_sum_pos (votes : list (str * Z)) :
  Forall (λ p, 1 ≤ p.2) votes → votes ≠ [] → 1 ≤ py_sum (dict_values votes).
Proof.
  assert (Hnn : ∀ l : list (str * Z),
             Forall (λ p, 1 ≤ p.2) l → 0 ≤ py_sum (dict_values l)).
  { unfold dict_values, py_sum.
    induction 1 as [|[k' v'] l Hv' _ IH]; csimpl in *; lia. }
  destruct 1 as [|[k v] votes Hv Hrest]; [done|]. intros _.
  specialize (Hnn votes Hrest).
  unfold dict_values, py_sum in *. csimpl in *. lia.
Qed.

(** ** Name normalization *)

Section NormalizationFacts.
Context `{UnicodeData}.

Lemma filter_marks (s : str) :
  marks s → filter (λ c, uc_combining c = 0%N) s = [].
Proof.
  induction 1 as [|d s Hd _ IH]; [done|]. by rewrite filter_cons_False.
Qed.

Lemma reorder_insert_starters (c : N) (placed : str) :
  filter (λ c, uc_combining c = 0%N) (rev (reorder_insert c placed))
  = filter (λ c, uc_combining c = 0%N) (rev (c :: placed)).
Proof.
  induction placed as [|d rest IH]; [done|]. cbn [reorder_insert].
  destruct (_ && _)%bool eqn:Hcond; [|done].
  apply andb_true_iff in Hcond as [Hc Hd].
  apply N.ltb_lt in Hc. apply N.ltb_lt in Hd.
  cbn [rev]. rewrite !filter_app, IH. cbn [rev]. rewrite !filter_app.
  rewrite (filter_cons_False _ c) by lia.
  rewrite (filter_cons_False _ d) by lia. done.
Qed.

(** Canonical ordering permutes marks only. *)
Lemma canonical_order_starters (s : str) :
  filter (λ c, uc_combining c = 0%N) (canonical_order s)
  = filter (λ c, uc_combining c = 0%N) s.
Proof.
  unfold canonical_order.
  assert (Hgen : ∀ placed,
    filter (λ c, uc_combining c = 0%N)
      (rev (fold_left (λ placed c, reorder_insert c placed) s placed))
    = filter (λ c, uc_combining c = 0%N) (rev placed)
      ++ filter (λ c, uc_combining c = 0%N) s).
  { induction s as [|c s IH]; intros placed; cbn [fold_left].
    - by rewrite filter_nil, app_nil_r.
    - rewrite IH, reorder_insert_starters. cbn [rev].
      rewrite filter_app, <- app_assoc. f_equal.
      by rewrite <- filter_app. }
  by rewrite Hgen.
Qed.

Lemma normalize_name_stripped (s : str) :
  normalize_name s = uc_lower (py_join_space (py_split (stripped s))).
Proof.
  unfold normalize_name, nfkd, stripped. by rewrite canonical_order_starters.
Qed.

Lemma stripped_app (a b : str) : stripped (a ++ b) = stripped a ++ stripped b.
Proof. unfold stripped. by rewrite bind_app, filter_app. Qed.

Lemma stripped_cons (c : N) (b : str) :
  stripped (c :: b)
  = filter (λ c, uc_combining c = 0%N) (uc_decomposition c) ++ stripped b.
Proof. unfold stripped. by rewrite bind_cons, filter_app. Qed.

Lemma stripped_blank (w : N) (b : str) :
  blank w → stripped (w :: b) = uc_decomposition w ++ stripped b.
Proof.
  intros [_ Hw]. rewrite stripped_cons. f_equal. apply filter_all.
  eapply Forall_impl; [exact Hw|]. by intros d [_ ?].
Qed.

Lemma py_split_go_blanks (ws rest : str) :
  Forall (λ d, uc_isspace d = true) ws →
  py_split_go [] (ws ++ rest) = py_split_go [] rest.
Proof.
  induction 1 as [|d ws Hd _ IH]; [done|]. cbn. by rewrite Hd.
Qed.

(** A longer run of white space splits the same words. *)
Lemma py_split_go_longer_run (a ws ws' rest : str) :
  ws ≠ [] →
  Forall (λ d, uc_isspace d = true) ws →
  Forall (λ d, uc_isspace d = true) ws' →
  ∀ cur,
    py_split_go cur (a ++ ws ++ ws' ++ rest) = py_split_go cur (a ++ ws ++ rest).
Proof.
  intros Hne Hws Hws'. induction a as [|c a IH]; intros cur.
  - destruct Hws as [|d ws Hd Hrest]; [done|]. cbn. rewrite Hd.
    by rewrite !py_split_go_blanks by done.
  - cbn. destruct (uc_isspace c); [|apply IH].
    destruct cur; by rewrite IH.
Qed.

(** Every variant of a name has the normal form of the name. *)
Lemma variant_normalize (s s' : str) :
  variant s s' → normalize_name s' = normalize_name s.
Proof.
  induction 1 as [s|a m b Hm|a base x extra b Hx Hextra|a w w' b Hw Hw'
                  |s1 s2 s3 _ IH1 _ IH2].
  - done.
  - rewrite !normalize_name_stripped, !stripped_app, stripped_cons.
    by rewrite (filter_marks _ Hm).
  - rewrite !normalize_name_stripped, !stripped_app, !stripped_cons.
    by rewrite Hx, filter_app, (filter_marks _ Hextra), app_nil_r.
  - rewrite !normalize_name_stripped, !stripped_app.
    rewrite !(stripped_blank w) by done. rewrite (stripped_blank w') by done.
    unfold py_split. f_equal. f_equal.
    destruct Hw as [Hne Hw]. destruct Hw' as [_ Hw'].
    apply py_split_go_longer_run; [done|..].
    + eapply Forall_impl; [exact Hw|]. by intros d [? _].
    + eapply Forall_impl; [exact Hw'|]. by intros d [? _].
  - by rewrite IH2.
Qed.

(** [_find_matching_cardinal] returns the first roster name with the
    normal form of the text, and nothing when there is none. *)
Lemma find_matching_first (cs : list Cardinal) (text : str) :
  match find_matching_cardinal cs text with
  | Some n =>
      ∃ before c after,
        cs = before ++ c :: after ∧ n = name c
        ∧ normalize_name (name c) = normalize_name text
        ∧ Forall (λ c', normalize_name (name c') ≠ normalize_name text) before
  | None => Forall (λ c, normalize_name (name c) ≠ normalize_name text) cs
  end.
Proof.
  induction cs as [|c cs IH]; cbn; [by apply Forall_nil|].
  destruct (decide _) as [Heq|Hne].
  - exists [], c, cs. split; [done|]. split; [done|]. split; [done|].
    by apply Forall_nil.
  - destruct (find_matching_cardinal cs text) as [n|].
    + destruct IH as (before & c' & after & -> & -> & Hn & Hb).
      exists (c :: before), c', after. split; [done|]. split; [done|].
      split; [done|]. by apply Forall_cons.
    + by apply Forall_cons.
Qed.

(** C8 (amended).  A roster name, or a variant of it with added diacritic
    marks or longer white-space runs, resolves to that name provided every
    earlier roster entry with the same normal form bears the same name.  In
    general the resolution of a text is the first roster name whose normal
    form is that of the text, and none when no entry matches. *)
Theorem resolve_round_trip (before after : list Cardinal) (c : Cardinal)
    (raw : str) :
  variant (name c) raw →
  (∀ c', c' ∈ before →
         normalize_name (name c') = normalize_name (name c) →
         name c' = name c) →
  find_matching_cardinal (before ++ c :: after) raw = Some (name c)
  ∧ ∀ cs text,
      match find_matching_cardinal cs text with
      | Some n =>
          ∃ before c after,
            cs = before ++ c :: after ∧ n = name c
            ∧ normalize_name (name c) = normalize_name text
            ∧ Forall (λ c', normalize_name (name c') ≠ normalize_name text)
                before
      | None => Forall (λ c, normalize_name (name c) ≠ normalize_name text) cs
      end.
Proof.
  intros Hvar%variant_normalize Hfirst. split; [|apply find_matching_first].
  induction before as [|c0 before IH]; cbn.
  - by rewrite decide_True.
  - destruct (decide _) as [Heq|Hne].
    + f_equal. apply Hfirst; [by left | congruence].
    + apply IH. intros c' Hc'. apply Hfirst. by right.
Qed.
End NormalizationFacts.

(** ** One turn *)

Lemma random_choice_lookup {A} (seq : list A) (r : nat) :
  seq ≠ [] →
  ∃ x, random_choice seq r = Some x
       ∧ seq !! (r mod length seq)%nat = Some x ∧ x ∈ seq.
Proof.
  intros Hne. destruct seq as [|a seq]; [done|].
  unfold random_choice.
  destruct (lookup_lt_is_Some_2 (a :: seq) (r mod length (a :: seq))%nat)
    as [x Hx].
  { apply Nat.mod_upper_bound. done. }
  exists x. split; [done|]. split; [done|]. by eapply list_elem_of_lookup_2.
Qed.

Section Turns.
Context `{UnicodeData}.

Lemma find_matching_cardinal_in (cs : list Cardinal) (raw voted : str) :
  find_matching_cardinal cs raw = Some voted → voted ∈ name <$> cs.
Proof.
  induction cs as [|c cs IH]; [done|]. cbn.
  destruct (decide _); [intros [= <-]; left|right; auto].
Qed.

Lemma invalid_vote_fallback_total (self : Conclave) (eligible : list str)
    (t : Turn) (c : Cardinal) :
  eligible ≠ [] →
  ∃ v, invalid_vote_fallback self eligible t c = Some v
       ∧ (history_within eligible c → frontrunners_within eligible self →
          v ∈ eligible).
Proof.
  intros Hne. unfold invalid_vote_fallback.
  destruct (last (voting_history c)) as [rec|] eqn:Hlast.
  - exists (voted_for rec). split; [done|]. intros Hh _. by apply Hh.
  - destruct (frontrunners self) as [|p fs] eqn:Hfs.
    + destruct (random_choice_lookup eligible (entropy t) Hne)
        as (x & Hx & _ & Hin). eauto.
    + destruct (py_max_is_Some Qltb (@snd str Q) (p :: fs)) as [x Hx]; [done|].
      rewrite Hx. exists x.1. split; [done|]. intros _ Hf. apply Hf.
      rewrite Hfs.
      destruct (py_max_first Qltb (@snd str Q) Qltb_trans Qltb_le_lt _ _ Hx)
        as (l1 & l2 & -> & _). set_solver.
Qed.

Lemma vote_on_error_total (self : Conclave) (eligible : list str)
    (t : Turn) (c : Cardinal) (votes : list (str * Z)) :
  eligible ≠ [] →
  ∃ v, vote_on_error self eligible t c votes
       = Some (record_vote self c votes v)
       ∧ (history_within eligible c → v ∈ eligible).
Proof.
  intros Hne. unfold vote_on_error.
  destruct (last (voting_history c)) as [rec|] eqn:Hlast.
  - exists (voted_for rec). split; [done|]. intros Hh. by apply Hh.
  - destruct (random_choice_lookup eligible (entropy t) Hne)
      as (x & Hx & _ & Hin). rewrite Hx. eauto.
Qed.

(** Every turn records exactly one vote. *)
Lemma vote_turn_records (self : Conclave) (eligible : list str)
    (t : Turn) (c : Cardinal) (votes : list (str * Z)) :
  eligible ≠ [] →
  ∃ v, vote_turn self eligible t c votes = Some (record_vote self c votes v)
       ∧ (history_within eligible c → frontrunners_within eligible self →
          v ∈ eligible).
Proof.
  intros Hne. unfold vote_turn, vote_attempt.
  destruct (invalid_vote_fallback_total self eligible t c Hne)
    as (vf & Hvf & Hfin).
  destruct (completion t _) as [raw|]; cbn [mbind option_bind].
  - rewrite Hvf. cbn [mbind option_bind].
    destruct (find_matching_cardinal (cardinals self) raw) as [voted|].
    + destruct (decide (voted ∈ eligible)); eauto.
    + eauto.
  - destruct (vote_on_error_total self eligible t c votes Hne)
      as (v & Hv & Hin). eauto.
Qed.
End Turns.

(** ** The frontrunner set *)

(** Rosters of up to 300 cardinals: rounding to binary64 changes neither
    the outcome of [ratio > 0.15] nor the order of two support ratios, so
    the exact ratios below decide as the floats of the program do. *)
Lemma floats_agree_upto_300 : floats_agree_upto 300 = true.
Proof. vm_compute. reflexivity. Qed.

Lemma update_frontrunners_total (votes : list (str * Z)) :
  tally_ok votes →
  update_frontrunners votes
  = Some (spec_frontrunners (py_sum (dict_values votes)) votes).
Proof.
  intros [_ Hpos]. unfold update_frontrunners, spec_frontrunners.
  rewrite (filter_all (λ p, 1 ≤ p.2)) by done.
  set (total := py_sum (dict_values votes)).
  assert (Hm : mapM (λ '(who, count),
                 if decide (total = 0) then None
                 else Some (who, inject_Z count / inject_Z total)%Q) votes
               = Some ((λ p, (p.1, inject_Z p.2 / inject_Z total)%Q) <$> votes)).
  { apply mapM_Some_2, Forall2_fmap_r, Forall_Forall2_diag, Forall_forall.
    intros [who count] Hin. unfold compose. cbn.
    rewrite decide_False; [done|].
    assert (Hne : votes ≠ []) by (intros ->; by apply elem_of_nil in Hin).
    pose proof (tally_sum_pos votes Hpos Hne) as Hsum.
    unfold total. lia. }
  rewrite Hm. cbn [mbind option_bind]. f_equal.
  apply list_filter_iff. intros [who ratio]. cbn. apply Qltb_lt.
Qed.

(** ** One round *)

Section Rounds.
Context `{UnicodeData}.

(** The loop over the cardinals: it completes, every cardinal gets one
    more record, and the tally grows by one vote per cardinal. *)
Lemma voting_loop_spec (self : Conclave) (eligible : list str)
    (turns : nat → Turn) (cs : list Cardinal) :
  eligible ≠ [] →
  ∀ (idx : nat) (votes : list (str * Z)),
  ∃ cs' votes',
    voting_loop self eligible turns idx cs votes = Some (cs', votes')
    ∧ Forall2 (λ c c', ∃ v, c' = save_vote c (round_number self) v
                            ∧ (history_within eligible c →
                               frontrunners_within eligible self →
                               v ∈ eligible)) cs cs'
    ∧ py_sum (dict_values votes')
      = py_sum (dict_values votes) + Z.of_nat (length cs)
    ∧ (tally_ok votes → tally_ok votes')
    ∧ (Forall (history_within eligible) cs →
       frontrunners_within eligible self →
       dict_keys votes ⊆ eligible → dict_keys votes' ⊆ eligible)
    ∧ (∀ i c, cs !! i = Some c →
       ∃ vi c' vi',
         vote_turn self eligible (turns (idx + i)%nat) c vi = Some (c', vi')
         ∧ cs' !! i = Some c').
Proof.
  intros Hne. induction cs as [|c cs IH]; intros idx votes.
  - exists [], votes. cbn. split; [done|]. split; [by apply Forall2_nil|].
    split; [lia|]. split; [done|]. split; [done|]. by intros i c ?.
  - destruct (vote_turn_records self eligible (turns idx) c votes Hne)
      as (v & Hv & Hin).
    destruct (IH (S idx) (count_vote votes v))
      as (cs' & votes' & Hloop & Hsaved & Hsum & Hok & Hkeys & Hturn).
    exists (save_vote c (round_number self) v :: cs'), votes'.
    split; [|split; [|split; [|split; [|split]]]].
    + cbn [voting_loop]. rewrite Hv. unfold record_vote.
      cbn [mbind option_bind]. rewrite Hloop. done.
    + apply Forall2_cons. split; [eauto | done].
    + rewrite Hsum, count_vote_sum. cbn [length]. lia.
    + intros Hvotes. by apply Hok, count_vote_ok.
    + intros [Hc Hcs]%Forall_cons Hfr Hsub. apply Hkeys; [done..|].
      intros x [->|Hx]%count_vote_keys; [by apply Hin | by apply Hsub].
    + intros [|i] c0 Hc0.
      * cbn in Hc0. injection Hc0 as <-. rewrite Nat.add_0_r.
        exists votes, (save_vote c (round_number self) v), (count_vote votes v).
        done.
      * cbn in Hc0. destruct (Hturn i c0 Hc0) as (vi & c' & vi' & Ht & Hl).
        replace (idx + S i)%nat with (S idx + i)%nat by lia. eauto.
Qed.

Lemma save_vote_name (c : Cardinal) (rn : Z) (v : str) :
  name (save_vote c rn v) = name c.
Proof. done. Qed.

Lemma saved_names (rn : Z) (P : Cardinal → str → Prop) (cs cs' : list Cardinal) :
  Forall2 (λ c c', ∃ v, c' = save_vote c rn v ∧ P c v) cs cs' →
  name <$> cs' = name <$> cs.
Proof.
  induction 1 as [|c c' cs cs' (v & -> & _) _ IH]; [done|].
  csimpl. by rewrite IH.
Qed.

(** A round always completes; this is everything it leaves behind. *)
Lemma run_voting_round_spec (turns : nat → Turn) (self : Conclave) :
  ∃ cs votes,
    voting_loop (next_round self) (name <$> cardinals self) turns 1
      (cardinals self) [] = Some (cs, votes)
    ∧ run_voting_round turns self
      = Some ({| cardinals := cs;
                 round_number := round_number self + 1;
                 pope_elected :=
                   if rr_winner (outcome_of self votes) is Some _
                   then true else pope_elected self;
                 winner :=
                   if rr_winner (outcome_of self votes) is Some _
                   then rr_winner (outcome_of self votes) else winner self;
                 frontrunners :=
                   spec_frontrunners (Z.of_nat (length (cardinals self))) votes;
                 round_results :=
                   save_round_result (outcome_of self votes)
                     (round_results self) |},
              votes)
    ∧ Forall2 (λ c c', ∃ v, c' = save_vote c (round_number self + 1) v
                            ∧ (history_within (name <$> cardinals self) c →
                               frontrunners_within (name <$> cardinals self) self →
                               v ∈ name <$> cardinals self))
        (cardinals self) cs
    ∧ py_sum (dict_values votes) = Z.of_nat (length (cardinals self))
    ∧ tally_ok votes
    ∧ (Forall (history_within (name <$> cardinals self)) (cardinals self) →
       frontrunners_within (name <$> cardinals self) self →
       dict_keys votes ⊆ name <$> cardinals self).
Proof.
  assert (Hloop : ∃ cs votes,
    voting_loop (next_round self) (name <$> cardinals self) turns 1
      (cardinals self) [] = Some (cs, votes)
    ∧ Forall2 (λ c c', ∃ v, c' = save_vote c (round_number self + 1) v
                            ∧ (history_within (name <$> cardinals self) c →
                               frontrunners_within (name <$> cardinals self) self →
                               v ∈ name <$> cardinals self))
        (cardinals self) cs
    ∧ py_sum (dict_values votes) = Z.of_nat (length (cardinals self))
    ∧ tally_ok votes
    ∧ (Forall (history_within (name <$> cardinals self)) (cardinals self) →
       frontrunners_within (name <$> cardinals self) self →
       dict_keys votes ⊆ name <$> cardinals self)).
  { destruct (cardinals self) as [|c0 cs0] eqn:Hcs.
    - exists [], []. cbn. split; [done|]. split; [by apply Forall2_nil|].
      split; [done|]. split; [apply tally_ok_nil | done].
    - destruct (voting_loop_spec (next_round self) (name <$> c0 :: cs0)
                  turns (c0 :: cs0)) with (idx := 1%nat) (votes := @nil (str * Z))
        as (cs & votes & Hl & Hsaved & Hsum & Hok & Hkeys & _); [done|].
      exists cs, votes. split; [done|]. split; [done|].
      split; [by rewrite Hsum|]. split; [apply Hok, tally_ok_nil|].
      intros Hh Hf. apply Hkeys; [done..|]. by intros x ?%elem_of_nil. }
  destruct Hloop as (cs & votes & Hl & Hsaved & Hsum & Hok & Hkeys).
  exists cs, votes. split; [done|]. split; [|done].
  unfold run_voting_round.
  change (cardinals (next_round self)) with (cardinals self).
  rewrite Hl. cbn [mbind option_bind].
  rewrite (update_frontrunners_total votes Hok). cbn [mbind option_bind].
  rewrite Hsum. rewrite <- (Forall2_length _ _ _ Hsaved). done.
Qed.
End Rounds.

(** ** Winner detection *)

Example required_votes_of_3 : required_votes 3 = 3.
Proof. reflexivity. Qed.

Example required_votes_of_10 : required_votes 10 = 7.
Proof. reflexivity. Qed.

Example required_votes_of_133 : required_votes 133 = 89.
Proof. reflexivity. Qed.

Lemma find_winner_spec (required : Z) (votes : list (str * Z)) :
  match find_winner required votes with
  | Some w =>
      ∃ before count after,
        votes = before ++ (w, count) :: after
        ∧ Forall (λ p, p.2 < required) before
        ∧ required ≤ count
  | None => Forall (λ p, p.2 < required) votes
  end.
Proof.
  induction votes as [|[who count] votes IH]; cbn.
  - by apply Forall_nil.
  - destruct (Z.geb_spec count required) as [Hge|Hlt].
    + exists [], count, votes. split; [done|]. split; [by apply Forall_nil | lia].
    + destruct (find_winner required votes) as [w|].
      * destruct IH as (before & c & after & -> & Hb & Hc).
        exists ((who, count) :: before), c, after. split; [done|].
        split; [|done]. apply Forall_cons. split; [cbn; lia | done].
      * apply Forall_cons. split; [cbn; lia | done].
Qed.

(** ** Turns and tallies *)

Lemma dict_get_set {V} (d : list (str * V)) (k k' : str) (v : V) :
  dict_get (dict_set d k v) k'
  = if decide (k = k') then Some v else dict_get d k'.
Proof.
  induction d as [|[k0 v0] d IH]; cbn.
  - destruct (decide (k = k')); done.
  - destruct (decide (k0 = k)) as [->|Hne]; cbn.
    + destruct (decide (k = k')); done.
    + destruct (decide (k0 = k')) as [->|Hne'].
      * by rewrite decide_False by done.
      * exact IH.
Qed.

Lemma count_votes_get (vs : list str) (votes : list (str * Z)) (k : str) :
  default 0 (dict_get (foldl count_vote votes vs) k)
  = default 0 (dict_get votes k) + occurrences k vs.
Proof.
  unfold occurrences. revert votes.
  induction vs as [|v vs IH]; intros votes; cbn [foldl].
  - cbn. lia.
  - rewrite IH. unfold count_vote at 1. rewrite dict_get_set.
    destruct (decide (v = k)) as [->|Hne].
    + rewrite filter_cons_True by done. cbn. lia.
    + rewrite filter_cons_False by done. lia.
Qed.

Lemma count_votes_ge_1 (vs : list str) (v : str) :
  v ∈ vs → 1 ≤ default 0 (dict_get (foldl count_vote [] vs) v).
Proof.
  intros Hv. rewrite count_votes_get. unfold occurrences. cbn.
  assert (0 < length (filter (λ v0, v0 = v) vs))%nat; [|lia].
  destruct (filter (λ v0, v0 = v) vs) eqn:Hf; [|cbn; lia].
  exfalso. by eapply (filter_nil_not_elem_of _ _ v Hf).
Qed.

Section MoreRounds.
Context `{UnicodeData}.

(** The vote of a turn does not depend on the tally it is added to. *)
Lemma vote_turn_uniform (self : Conclave) (eligible : list str) (t : Turn)
    (c : Cardinal) :
  eligible ≠ [] →
  ∃ v, ∀ votes,
    vote_turn self eligible t c votes = Some (record_vote self c votes v).
Proof.
  intros Hne. unfold vote_turn, vote_attempt.
  destruct (invalid_vote_fallback_total self eligible t c Hne)
    as (vf & Hvf & _).
  destruct (completion t _) as [raw|]; cbn [mbind option_bind].
  - rewrite Hvf. cbn [mbind option_bind].
    destruct (find_matching_cardinal (cardinals self) raw) as [voted|].
    + destruct (decide (voted ∈ eligible)); eauto.
    + eauto.
  - unfold vote_on_error. destruct (last (voting_history c)) as [rec|].
    + by exists (voted_for rec).
    + destruct (random_choice_lookup eligible (entropy t) Hne) as (x & Hx & _).
      rewrite Hx. by exists x.
Qed.

(** The loop, by the list of the votes it records. *)
Lemma voting_loop_votes (self : Conclave) (eligible : list str)
    (turns : nat → Turn) (cs : list Cardinal) :
  eligible ≠ [] →
  ∀ (idx : nat) (votes : list (str * Z)),
  ∃ vs,
    length vs = length cs
    ∧ voting_loop self eligible turns idx cs votes
      = Some (zip_with (λ c v, save_vote c (round_number self) v) cs vs,
              foldl count_vote votes vs)
    ∧ ∀ i c v, cs !! i = Some c → vs !! i = Some v →
        ∀ votes0,
          vote_turn self eligible (turns (idx + i)%nat) c votes0
          = Some (record_vote self c votes0 v).
Proof.
  intros Hne. induction cs as [|c cs IH]; intros idx votes.
  - exists []. split; [done|]. split; [done|]. by intros i c v ?.
  - destruct (vote_turn_uniform self eligible (turns idx) c Hne) as (v & Hv).
    destruct (IH (S idx) (count_vote votes v)) as (vs & Hlen & Hloop & Hturn).
    exists (v :: vs). split; [by cbn; rewrite Hlen|]. split.
    + cbn [voting_loop]. rewrite Hv. unfold record_vote.
      cbn [mbind option_bind]. rewrite Hloop. done.
    + intros [|i] c0 v0 Hc0 Hv0; cbn in Hc0, Hv0.
      * injection Hc0 as <-. injection Hv0 as <-. by rewrite Nat.add_0_r.
      * replace (idx + S i)%nat with (S idx + i)%nat by lia. by eapply Hturn.
Qed.

(** A round, by the list of the votes it records: the cardinals get them
    as their new records, in roster order, and the tally is their count. *)
Lemma run_voting_round_votes (turns : nat → Turn) (self : Conclave) :
  ∃ self' votes vs,
    run_voting_round turns self = Some (self', votes)
    ∧ length vs = length (cardinals self)
    ∧ cardinals self'
      = zip_with (λ c v, save_vote c (round_number self + 1) v)
          (cardinals self) vs
    ∧ votes = foldl count_vote [] vs
    ∧ round_number self' = round_number self + 1
    ∧ round_results self'
      = save_round_result (outcome_of self votes) (round_results self)
    ∧ frontrunners self'
      = spec_frontrunners (Z.of_nat (length (cardinals self))) votes
    ∧ pope_elected self'
      = (if rr_winner (outcome_of self votes) is Some _
         then true else pope_elected self)
    ∧ winner self'
      = (if rr_winner (outcome_of self votes) is Some _
         then rr_winner (outcome_of self votes) else winner self)
    ∧ ∀ i c v, cardinals self !! i = Some c → vs !! i = Some v →
        ∀ votes0,
          vote_turn (next_round self) (name <$> cardinals self)
            (turns (1 + i)%nat) c votes0
          = Some (save_vote c (round_number self + 1) v, count_vote votes0 v).
Proof.
  destruct (run_voting_round_spec turns self) as (cs & votes & Hl & Hrun & _).
  assert (Hvs : ∃ vs,
    length vs = length (cardinals self)
    ∧ cs = zip_with (λ c v, save_vote c (round_number self + 1) v)
             (cardinals self) vs
    ∧ votes = foldl count_vote [] vs
    ∧ ∀ i c v, cardinals self !! i = Some c → vs !! i = Some v →
        ∀ votes0,
          vote_turn (next_round self) (name <$> cardinals self)
            (turns (1 + i)%nat) c votes0
          = Some (save_vote c (round_number self + 1) v, count_vote votes0 v)).
  { destruct (cardinals self) as [|c0 cs0] eqn:Hcs.
    - cbn in Hl. injection Hl as <- <-. exists [].
      split; [done|]. split; [done|]. split; [done|]. by intros i c v ?.
    - destruct (voting_loop_votes (next_round self) (name <$> c0 :: cs0)
                  turns (c0 :: cs0)) with (idx := 1%nat) (votes := @nil (str * Z))
        as (vs & Hlen & Hl2 & Hturn); [done|].
      rewrite Hl in Hl2. injection Hl2 as -> ->. exists vs.
      split; [done|]. split; [done|]. split; [done|]. exact Hturn. }
  destruct Hvs as (vs & Hlen & -> & -> & Hturn).
  eexists _, _, vs. split; [exact Hrun|]. cbn.
  split; [done|]. split; [done|]. split; [done|]. split; [done|].
  split; [done|]. split; [done|]. split; [done|]. split; [done|]. exact Hturn.
Qed.
End MoreRounds.

(** What a recorded vote is on the data: the fields of the cardinal that
    [save_vote] returns and the entries of the tally after the count. *)
Ltac recorded_on_data :=
  unfold record_vote, save_vote, count_vote;
  cbn [name bio political_leaning voting_history round_number next_round];
  split; [reflexivity|]; split; [reflexivity|]; split; [reflexivity|];
  split; [reflexivity|];
  split; [by rewrite dict_get_set, decide_True|];
  split; [by intros k Hk; rewrite dict_get_set, decide_False|];
  match goal with
  | |- context [decide (?v ∈ dict_keys ?votes)] =>
      destruct (decide (v ∈ dict_keys votes));
      [by apply dict_set_keys_present | by apply dict_set_keys_absent]
  end.

Section RoundClaims.
Context `{UnicodeData}.

(** C1.  Every round completes and persists an outcome for its round
    number.  The outcome has a winner exactly when some entry of its
    tally reaches [floor(rosterSize * 2 / 3) + 1]; the winner is then the
    first entry of the tally, in insertion order, that reaches the
    threshold, and its count in the votes mapping reaches it. *)
Theorem winner_iff_supermajority (turns : nat → Turn) (self : Conclave) :
  ∃ self' votes r,
    run_voting_round turns self = Some (self', votes)
    ∧ get_round_result (round_number self') (round_results self') = Some r
    ∧ rr_round_number r = round_number self'
    ∧ rr_votes r = votes
    ∧ let threshold := (Z.of_nat (length (cardinals self)) * 2) `div` 3 + 1 in
      (is_Some (rr_winner r)
       ↔ ∃ who count, (who, count) ∈ rr_votes r ∧ threshold ≤ count)
      ∧ ∀ w, rr_winner r = Some w →
          ∃ before count after,
            rr_votes r = before ++ (w, count) :: after
            ∧ Forall (λ p, p.2 < threshold) before
            ∧ threshold ≤ count
            ∧ dict_get (rr_votes r) w = Some count.
Proof.
  destruct (run_voting_round_spec turns self)
    as (cs & votes & _ & Hrun & _ & _ & [Hnd _] & _).
  eexists _, votes, (outcome_of self votes).
  split; [exact Hrun|]. cbn [round_number round_results].
  split; [apply get_after_save|]. split; [done|]. split; [done|].
  cbn zeta. cbn [outcome_of rr_votes rr_winner]. unfold required_votes.
  set (threshold := (Z.of_nat (length (cardinals self)) * 2) `div` 3 + 1).
  pose proof (find_winner_spec threshold votes) as Hw.
  destruct (find_winner threshold votes) as [w|].
  - destruct Hw as (before & count & after & Hv & Hb & Hc). split.
    + split; [|eauto]. intros _. exists w, count. split; [|done].
      rewrite Hv. set_solver.
    + intros w' [= <-]. exists before, count, after.
      split; [done|]. split; [done|]. split; [done|].
      apply dict_get_entry; [done|]. rewrite Hv. set_solver.
  - split; [|done]. split; [by intros [? ?]|].
    intros (who & count & Hin & Hge). exfalso.
    rewrite Forall_forall in Hw. specialize (Hw _ Hin). cbn in Hw. lia.
Qed.

Lemma dict_get_None {V} (d : list (str * V)) (k : str) :
  dict_get d k = None ↔ k ∉ dict_keys d.
Proof.
  unfold dict_keys. induction d as [|[k' v] d IH]; csimpl.
  - split; [intros _ ?%elem_of_nil; done | done].
  - rewrite not_elem_of_cons. destruct (decide (k' = k)) as [->|Hne].
    + split; [done | by intros [? _]].
    + rewrite IH. split; [done | by intros [_ ?]].
Qed.

Lemma spec_frontrunners_keys (n : Z) (votes : list (str * Z)) (p : str * Q) :
  p ∈ spec_frontrunners n votes → p.1 ∈ dict_keys votes.
Proof.
  unfold spec_frontrunners.
  intros [_ Hin]%list_elem_of_filter.
  apply list_elem_of_fmap in Hin as (q & -> & Hq).
  apply list_elem_of_filter in Hq as [_ Hq]. cbn.
  by apply list_elem_of_fmap_2.
Qed.

Lemma history_within_saved (eligible : list str) (c : Cardinal) (rn : Z) (v : str) :
  v ∈ eligible → history_within eligible (save_vote c rn v).
Proof.
  intros Hv rec. cbn. rewrite last_snoc. by intros [= <-].
Qed.

Lemma saved_history_within (eligible : list str) (rn : Z) (Q : Prop)
    (cs cs' : list Cardinal) :
  Forall2 (λ c c', ∃ v, c' = save_vote c rn v
                        ∧ (history_within eligible c → Q → v ∈ eligible)) cs cs' →
  Forall (history_within eligible) cs → Q →
  Forall (history_within eligible) cs'.
Proof.
  induction 1 as [|c c' l l' (v & -> & Hv) _ IH]; intros Hall HQ.
  - by apply Forall_nil.
  - apply Forall_cons in Hall as [Hc Hl]. apply Forall_cons. split.
    + apply history_within_saved. by apply Hv.
    + by apply IH.
Qed.

(** C2 (amended).  Every round completes and the tally it persists sums
    to the roster size, whatever the histories hold; the roster is
    unchanged.  When the most recent prior vote of every agent and every
    current frontrunner is a name of the roster, the tally has only roster
    names as keys and the condition holds again after the round; it holds
    at the start of a simulation, where the histories and the frontrunner
    set are empty. *)
Theorem tally_counts_every_vote (turns : nat → Turn) (self : Conclave) :
  ∃ self' votes r,
    run_voting_round turns self = Some (self', votes)
    ∧ get_round_result (round_number self') (round_results self') = Some r
    ∧ rr_votes r = votes
    ∧ py_sum (dict_values votes) = Z.of_nat (length (cardinals self))
    ∧ name <$> cardinals self' = name <$> cardinals self
    ∧ (Forall (history_within (name <$> cardinals self)) (cardinals self) →
       frontrunners_within (name <$> cardinals self) self →
       dict_keys votes ⊆ name <$> cardinals self
       ∧ Forall (history_within (name <$> cardinals self')) (cardinals self')
       ∧ frontrunners_within (name <$> cardinals self') self')
    ∧ (Forall (λ c, voting_history c = []) (cardinals self) →
       frontrunners self = [] →
       Forall (history_within (name <$> cardinals self)) (cardinals self)
       ∧ frontrunners_within (name <$> cardinals self) self).
Proof.
  destruct (run_voting_round_spec turns self)
    as (cs & votes & _ & Hrun & Hsaved & Hsum & Hok & Hkeys).
  pose proof (saved_names _ _ _ _ Hsaved) as Hnames.
  eexists _, votes, (outcome_of self votes).
  split; [exact Hrun|]. cbn [round_number round_results cardinals frontrunners].
  split; [apply get_after_save|]. split; [done|]. split; [done|].
  split; [done|]. split.
  - intros Hhist Hfront. specialize (Hkeys Hhist Hfront).
    split; [done|]. rewrite Hnames. split.
    + by apply (saved_history_within _ _ _ _ _ Hsaved).
    + intros p Hp. cbn [frontrunners] in Hp.
      by apply Hkeys, (spec_frontrunners_keys _ _ _ Hp).
  - intros Hempty Hnone. split.
    + eapply Forall_impl; [exact Hempty|]. intros c Hc rec.
      by rewrite Hc.
    + intros p. rewrite Hnone. by intros ?%elem_of_nil.
Qed.

(** C5.  After a round the frontrunner set is the mapping built from the
    tally of that round alone: [count / rosterSize] for every candidate
    with a vote, kept when above 0.15.  A candidate with no vote in the
    round is absent from it, whatever the set held before. *)
Theorem frontrunners_recomputed (turns : nat → Turn) (self : Conclave) :
  ∃ self' votes,
    run_voting_round turns self = Some (self', votes)
    ∧ frontrunners self'
      = spec_frontrunners (Z.of_nat (length (cardinals self))) votes
    ∧ ∀ who, dict_get votes who = None → who ∉ dict_keys (frontrunners self').
Proof.
  destruct (run_voting_round_spec turns self) as (cs & votes & _ & Hrun & _).
  eexists _, votes. split; [exact Hrun|]. cbn [frontrunners].
  split; [done|]. intros who Hnone%dict_get_None Hin.
  apply list_elem_of_fmap in Hin as (p & -> & Hp).
  by apply Hnone, (spec_frontrunners_keys _ _ _ Hp).
Qed.
(** ** Fallback votes *)

Lemma invalid_vote_fallback_policy (self : Conclave) (eligible : list str)
    (t : Turn) (c : Cardinal) (v : str) :
  invalid_vote_fallback self eligible t c = Some v →
  layered_choice self eligible t c v.
Proof.
  unfold invalid_vote_fallback, layered_choice.
  destruct (last (voting_history c)) as [rec|]; [by intros [= <-]|].
  destruct (frontrunners self) as [|p fs].
  - unfold random_choice. by destruct eligible.
  - destruct (py_max Qltb snd (p :: fs)) as [[w ratio]|] eqn:Hmax; [|done].
    intros [= <-].
    destruct (py_max_first Qltb (@snd str Q) Qltb_trans Qltb_le_lt _ _ Hmax)
      as (l1 & l2 & Heq & H1 & H2).
    exists l1, ratio, l2. split; [done|]. split.
    + eapply Forall_impl; [exact H1|]. intros q Hq. by apply Qltb_lt.
    + eapply Forall_impl; [exact H2|]. intros q Hq. by apply Qltb_ge.
Qed.

Lemma vote_turn_on_error (self : Conclave) (eligible : list str) (t : Turn)
    (c : Cardinal) (votes : list (str * Z)) (rec : VotingRecord) :
  last (voting_history c) = Some rec →
  completion t (get_voting_prompt self c eligible) = None →
  vote_turn self eligible t c votes
  = Some (record_vote self c votes (voted_for rec)).
Proof.
  intros Hlast Herr. unfold vote_turn, vote_attempt. rewrite Herr.
  cbn [mbind option_bind]. unfold vote_on_error. by rewrite Hlast.
Qed.

Lemma vote_turn_on_invalid (self : Conclave) (eligible : list str) (t : Turn)
    (c : Cardinal) (votes : list (str * Z)) (raw : str) :
  eligible ≠ [] →
  completion t (get_voting_prompt self c eligible) = Some raw →
  (∀ v, find_matching_cardinal (cardinals self) raw = Some v → v ∉ eligible) →
  ∃ v, invalid_vote_fallback self eligible t c = Some v
       ∧ vote_turn self eligible t c votes = Some (record_vote self c votes v).
Proof.
  intros Hne Hraw Hbad.
  destruct (invalid_vote_fallback_total self eligible t c Hne) as (v & Hv & _).
  exists v. split; [done|]. unfold vote_turn, vote_attempt.
  rewrite Hraw. cbn [mbind option_bind]. rewrite Hv. cbn [mbind option_bind].
  destruct (find_matching_cardinal (cardinals self) raw) as [w|] eqn:Hw; [|done].
  destruct (decide (w ∈ eligible)) as [Hin|]; [|done].
  by destruct (Hbad w).
Qed.

(** The cardinal that sits at position [i] after the round is the one
    its own turn produced. *)
Lemma round_turn (turns : nat → Turn) (self : Conclave) (i : nat) (c : Cardinal) :
  cardinals self !! i = Some c →
  ∃ self' tally vi c' vi',
    run_voting_round turns self = Some (self', tally)
    ∧ vote_turn (next_round self) (name <$> cardinals self) (turns (1 + i)%nat)
        c vi = Some (c', vi')
    ∧ cardinals self' !! i = Some c'.
Proof.
  intros Hc.
  destruct (run_voting_round_spec turns self) as (cs & votes & Hl & Hrun & _).
  assert (Hne : name <$> cardinals self ≠ []).
  { destruct (cardinals self); [done|]. done. }
  destruct (voting_loop_spec (next_round self) (name <$> cardinals self)
              turns (cardinals self) Hne 1%nat [])
    as (cs2 & votes2 & Hl2 & _ & _ & _ & _ & Hturn).
  rewrite Hl in Hl2. injection Hl2 as <- <-.
  destruct (Hturn i c Hc) as (vi & c' & vi' & Ht & Hi).
  eexists _, votes, vi, c', vi'. split; [exact Hrun|]. split; [done|]. done.
Qed.

(** The round of a turn that records a vote for [v]. *)
Lemma recorded_turn (turns : nat → Turn) (self : Conclave) (i : nat)
    (c : Cardinal) (v : str) :
  cardinals self !! i = Some c →
  (∀ votes,
     vote_turn (next_round self) (name <$> cardinals self) (turns (1 + i)%nat)
       c votes
     = Some (record_vote (next_round self) c votes v)) →
  ∃ self' tally,
    run_voting_round turns self = Some (self', tally)
    ∧ cardinals self' !! i = Some (save_vote c (round_number self + 1) v)
    ∧ 1 ≤ default 0 (dict_get tally v).
Proof.
  intros Hc Hturn.
  destruct (run_voting_round_votes turns self)
    as (self' & tally & vs & Hrun & Hlen & Hcs & -> & _ & _ & _ & _ & _ & Hvs).
  destruct (lookup_lt_is_Some_2 vs i) as [vi Hvi].
  { rewrite Hlen. by eapply lookup_lt_Some. }
  specialize (Hvs i c vi Hc Hvi []). rewrite Hturn in Hvs.
  assert (vi = v) as ->.
  { apply (inj Some), (f_equal snd) in Hvs. cbn in Hvs. congruence. }
  eexists self', _. split; [exact Hrun|]. split.
  - rewrite Hcs. apply lookup_zip_with_Some. eauto.
  - apply count_votes_ge_1. by eapply list_elem_of_lookup_2.
Qed.

(** C3.  A cardinal with a non-empty history whose oracle call raises is
    recorded as voting for the [voted_for] of its last record, whatever
    the state of the election (the frontrunner set included): its turn
    appends the record of that vote to its history and adds one to the
    count of that name in the tally, and the round ends with that record
    last in its history and that name counted in the tally. *)
Theorem error_fallback_repeats_prior_vote (turns : nat → Turn) (self : Conclave)
    (i : nat) (c : Cardinal) (rec : VotingRecord) :
  cardinals self !! i = Some c →
  last (voting_history c) = Some rec →
  completion (turns (1 + i)%nat)
    (get_voting_prompt (next_round self) c (name <$> cardinals self)) = None →
  (∀ votes, ∃ c' votes',
     vote_turn (next_round self) (name <$> cardinals self) (turns (1 + i)%nat)
       c votes = Some (c', votes')
     ∧ name c' = name c ∧ bio c' = bio c
     ∧ political_leaning c' = political_leaning c
     ∧ voting_history c'
       = voting_history c
         ++ [{| vr_round := round_number self + 1;
                voted_for := voted_for rec |}]
     ∧ dict_get votes' (voted_for rec)
       = Some (default 0 (dict_get votes (voted_for rec)) + 1)
     ∧ (∀ k, k ≠ voted_for rec → dict_get votes' k = dict_get votes k)
     ∧ dict_keys votes'
       = (if decide (voted_for rec ∈ dict_keys votes) then dict_keys votes
          else dict_keys votes ++ [voted_for rec]))
  ∧ ∃ self' tally c',
      run_voting_round turns self = Some (self', tally)
      ∧ cardinals self' !! i = Some c'
      ∧ voting_history c'
        = voting_history c
          ++ [{| vr_round := round_number self + 1;
                 voted_for := voted_for rec |}]
      ∧ 1 ≤ default 0 (dict_get tally (voted_for rec)).
Proof.
  intros Hc Hlast Herr.
  pose proof (λ votes, vote_turn_on_error (next_round self) _ _ c votes rec
                         Hlast Herr) as Hturn.
  split.
  - intros votes. eexists _, _. split; [apply Hturn|]. recorded_on_data.
  - destruct (recorded_turn turns self i c (voted_for rec) Hc Hturn)
      as (self' & tally & Hrun & Hi & Hcount).
    exists self', tally, (save_vote c (round_number self + 1) (voted_for rec)).
    split; [exact Hrun|]. split; [exact Hi|]. split; [reflexivity|].
    exact Hcount.
Qed.

(** C4.  A reply that resolves to no member of the eligible roster is
    replaced by the last recorded vote if the history is non-empty; else by
    the first frontrunner of greatest support ratio if there is a
    frontrunner; else by the roster entry at the index drawn by
    [random.choice], every index below the roster size being its own
    draw.  The turn appends the record of the replacement to the history
    and adds one to its count in the tally, and the round ends with that
    record last in the history and that name counted in the tally. *)
Theorem invalid_reply_follows_layered_policy (turns : nat → Turn)
    (self : Conclave) (i : nat) (c : Cardinal) (raw : str) :
  cardinals self !! i = Some c →
  completion (turns (1 + i)%nat)
    (get_voting_prompt (next_round self) c (name <$> cardinals self))
  = Some raw →
  (∀ v, find_matching_cardinal (cardinals self) raw = Some v →
        v ∉ name <$> cardinals self) →
  ∃ v,
    layered_choice self (name <$> cardinals self) (turns (1 + i)%nat) c v
    ∧ (∀ votes, ∃ c' votes',
         vote_turn (next_round self) (name <$> cardinals self)
           (turns (1 + i)%nat) c votes = Some (c', votes')
         ∧ name c' = name c ∧ bio c' = bio c
         ∧ political_leaning c' = political_leaning c
         ∧ voting_history c'
           = voting_history c
             ++ [{| vr_round := round_number self + 1; voted_for := v |}]
         ∧ dict_get votes' v = Some (default 0 (dict_get votes v) + 1)
         ∧ (∀ k, k ≠ v → dict_get votes' k = dict_get votes k)
         ∧ dict_keys votes'
           = (if decide (v ∈ dict_keys votes) then dict_keys votes
              else dict_keys votes ++ [v]))
    ∧ (∃ self' tally c',
         run_voting_round turns self = Some (self', tally)
         ∧ cardinals self' !! i = Some c'
         ∧ voting_history c'
           = voting_history c
             ++ [{| vr_round := round_number self + 1; voted_for := v |}]
         ∧ 1 ≤ default 0 (dict_get tally v))
    ∧ ∀ j, (j < length (cardinals self))%nat →
           random_choice (name <$> cardinals self) j
           = (name <$> cardinals self) !! j.
Proof.
  intros Hc Hraw Hbad.
  assert (Hne : name <$> cardinals self ≠ []).
  { destruct (cardinals self); [done|]. done. }
  destruct (vote_turn_on_invalid (next_round self) _ (turns (1 + i)%nat) c []
              raw Hne Hraw Hbad) as (v & Hv & _).
  assert (Hturn : ∀ votes,
    vote_turn (next_round self) (name <$> cardinals self) (turns (1 + i)%nat)
      c votes
    = Some (record_vote (next_round self) c votes v)).
  { intros votes.
    destruct (vote_turn_on_invalid (next_round self) _ (turns (1 + i)%nat) c
                votes raw Hne Hraw Hbad) as (v' & Hv' & Ht).
    rewrite Hv in Hv'. by injection Hv' as <-. }
  exists v. split; [|split; [|split]].
  - by apply (invalid_vote_fallback_policy (next_round self)).
  - intros votes. eexists _, _. split; [apply Hturn|]. recorded_on_data.
  - destruct (recorded_turn turns self i c v Hc Hturn)
      as (self' & tally & Hrun & Hi & Hcount).
    exists self', tally, (save_vote c (round_number self + 1) v).
    split; [exact Hrun|]. split; [exact Hi|]. split; [reflexivity|].
    exact Hcount.
  - intros j Hj. unfold random_choice.
    destruct (name <$> cardinals self) as [|n0 l] eqn:Hl; [done|].
    rewrite <- Hl, length_fmap. by rewrite Nat.mod_small.
Qed.
(** ** Round sequencing *)

(** [n] successive rounds from any state: all complete, the [k]-th one
    persists its outcome under the round number it reached, and nothing
    else in the ledger changes. *)
Lemma run_rounds_spec (turns : nat → nat → Turn) (n : nat) :
  ∀ (start : nat) (self : Conclave),
  ∃ final tallies,
    run_rounds turns start n self = Some (final, tallies)
    ∧ length tallies = n
    ∧ round_number final = round_number self + Z.of_nat n
    ∧ length (cardinals final) = length (cardinals self)
    ∧ (∀ k votes, tallies !! k = Some votes →
       get_round_result (round_number self + Z.of_nat k + 1) (round_results final)
       = Some {| rr_round_number := round_number self + Z.of_nat k + 1;
                 rr_votes := votes;
                 rr_winner :=
                   find_winner
                     (required_votes (Z.of_nat (length (cardinals self))))
                     votes |})
    ∧ (∀ f, (∀ j, round_number self < j ≤ round_number self + Z.of_nat n →
                  f ≠ file_name j) →
            round_results final !! f = round_results self !! f)
    ∧ Forall2 (λ c c', ∃ recs,
                 voting_history c' = voting_history c ++ recs
                 ∧ vr_round <$> recs
                   = (λ k, round_number self + Z.of_nat k + 1) <$> seq 0 n)
        (cardinals self) (cardinals final).
Proof.
  induction n as [|n IH]; intros start self.
  - exists self, []. cbn. split; [done|]. split; [done|]. split; [lia|].
    split; [done|]. split; [by intros k votes ?|]. split; [done|].
    apply Forall_Forall2_diag, Forall_forall. intros c _. exists [].
    by rewrite app_nil_r.
  - destruct (run_voting_round_spec (turns start) self)
      as (cs & votes & _ & Hrun & Hsaved & _).
    set (self1 := {| cardinals := cs;
                     round_number := round_number self + 1;
                     pope_elected := _ |}) in Hrun.
    destruct (IH (S start) self1)
      as (final & tallies & Hrest & Hlen & Hrn & Hcs & Hget & Hother & Hhist).
    pose proof (Forall2_length _ _ _ Hsaved) as Hlen1.
    change (cardinals self1) with cs in *.
    change (round_number self1) with (round_number self + 1) in *.
    change (round_results self1)
      with (save_round_result (outcome_of self votes) (round_results self)) in *.
    exists final, (votes :: tallies).
    split; [|split; [|split; [|split; [|split; [|split]]]]].
    + cbn [run_rounds]. rewrite Hrun. cbn [mbind option_bind].
      by rewrite Hrest.
    + cbn. by rewrite Hlen.
    + rewrite Hrn. lia.
    + by rewrite Hcs.
    + intros [|k] tally Hk.
      * cbn in Hk. injection Hk as <-.
        unfold get_round_result. rewrite Hother.
        -- replace (round_number self + Z.of_nat 0 + 1)
             with (round_number self + 1) by lia.
           apply (get_after_save (outcome_of self votes)).
        -- intros j Hj Heq. apply file_name_inj in Heq. lia.
      * cbn in Hk. specialize (Hget k tally Hk).
        replace (round_number self + Z.of_nat (S k) + 1)
          with (round_number self + 1 + Z.of_nat k + 1) by lia.
        by rewrite Hlen1.
    + intros f Hf. rewrite Hother.
      * apply lookup_insert_ne. cbn. intros Heq. apply (Hf (round_number self + 1)); [lia | done].
      * intros j Hj. apply Hf. lia.
    + eapply Forall2_trans; [|exact Hsaved|exact Hhist].
      intros c c1 c2 (v & -> & _) (recs & Hh & Hr). cbn in Hh.
      exists ({| vr_round := round_number self + 1; voted_for := v |} :: recs).
      split; [by rewrite Hh, <- app_assoc|].
      cbn [seq]. rewrite <- fmap_S_seq. csimpl. rewrite Hr. f_equal; [lia|].
      rewrite <- list_fmap_compose. apply list_fmap_ext. intros i k _. cbn. lia.
Qed.

(** C6.  From a state whose round number is 0, [n] calls of
    [run_voting_round] all complete and the round number ends at [n].  The
    [k]-th call persists its outcome under round number [k], for [k] from
    1 to [n]; the file of no other round is written; every record appended
    to a history carries the number of its round, incremented before the
    vote. *)
Theorem rounds_are_numbered_consecutively (turns : nat → nat → Turn)
    (n : nat) (self : Conclave) :
  round_number self = 0 →
  ∃ final tallies,
    run_rounds turns 0 n self = Some (final, tallies)
    ∧ length tallies = n
    ∧ round_number final = Z.of_nat n
    ∧ (∀ k votes, tallies !! k = Some votes →
       ∃ r, get_round_result (Z.of_nat k + 1) (round_results final) = Some r
            ∧ rr_round_number r = Z.of_nat k + 1
            ∧ rr_votes r = votes)
    ∧ (∀ f, (∀ j, 1 ≤ j ≤ Z.of_nat n → f ≠ file_name j) →
            round_results final !! f = round_results self !! f)
    ∧ Forall2 (λ c c', ∃ recs,
                 voting_history c' = voting_history c ++ recs
                 ∧ vr_round <$> recs = (λ k, Z.of_nat k + 1) <$> seq 0 n)
        (cardinals self) (cardinals final).
Proof.
  intros Hzero.
  destruct (run_rounds_spec turns n 0%nat self)
    as (final & tallies & Hrun & Hlen & Hrn & _ & Hget & Hother & Hhist).
  rewrite Hzero in *. exists final, tallies.
  split; [done|]. split; [done|]. split; [by rewrite Hrn|].
  split; [|split].
  - intros k votes Hk. specialize (Hget k votes Hk). cbn in Hget.
    eexists. split; [exact Hget|]. done.
  - intros f Hf. apply Hother. intros j Hj. apply Hf. lia.
  - done.
Qed.
(** ** The voting prompt *)

(** C9 (amended).  For a cardinal with a non-empty history, the prompt
    carries the line of its most recent prior vote exactly when the ledger
    holds an outcome for the round before the current one; the prompt never
    carries another prior vote. *)
Theorem prior_vote_needs_previous_round (self : Conclave) (c : Cardinal)
    (eligible : list str) (rec : VotingRecord) :
  last (voting_history c) = Some rec →
  (PPreviousVote (voted_for rec) ∈ get_voting_prompt self c eligible
   ↔ is_Some (get_round_result (round_number self - 1) (round_results self)))
  ∧ ∀ v, PPreviousVote v ∈ get_voting_prompt self c eligible →
         v = voted_for rec.
Proof.
  intros Hlast. unfold get_voting_prompt. rewrite Hlast.
  assert (Hfront : ∀ v, PPreviousVote v ∉
            match frontrunners self with
            | [] => [PNoFrontrunners]
            | fs => (λ '(who, support), PFrontrunner who support) <$> fs
            end).
  { intros v. destruct (frontrunners self) as [|p fs].
    - by intros [?|?%elem_of_nil]%elem_of_cons.
    - intros ([who s] & ? & _)%list_elem_of_fmap. done. }
  assert (Htail : ∀ v, PPreviousVote v ∉ PEligible <$> eligible).
  { intros v (who & ? & _)%list_elem_of_fmap. done. }
  assert (Hprev : ∀ (votes : list (str * Z)) v,
            PPreviousVote v ∉
              (λ '(who, n), PPreviousVotes who n) <$> votes).
  { intros votes v ([who n] & ? & _)%list_elem_of_fmap. done. }
  destruct (get_round_result (round_number self - 1) (round_results self))
    as [previous|]; split.
  - split; [eauto|]. intros _.
    repeat (rewrite ?elem_of_app, ?elem_of_cons). tauto.
  - intros v. repeat (rewrite ?elem_of_app, ?elem_of_cons).
    specialize (Hfront v). specialize (Htail v).
    specialize (Hprev (rr_votes previous) v).
    intros Hin. decompose [or] Hin; close_membership.
  - split; [|by intros [? ?]].
    repeat (rewrite ?elem_of_app, ?elem_of_cons).
    specialize (Hfront (voted_for rec)). specialize (Htail (voted_for rec)).
    intros Hin. decompose [or] Hin; close_membership.
  - intros v. repeat (rewrite ?elem_of_app, ?elem_of_cons).
    specialize (Hfront v). specialize (Htail v).
    intros Hin. decompose [or] Hin; close_membership.
Qed.
End RoundClaims.

(** ** The ledger, as claimed *)

(** C7.  On a ledger written by [save_round_result], and for every order
    in which the directory is listed, [get_latest_round_result] returns
    none when the ledger is empty and otherwise the stored outcome whose
    round number is the greatest of all stored round numbers, contiguous or
    not; with outcomes for rounds 1 and 3 only, it returns that of
    round 3. *)
Theorem get_latest_is_numeric_maximum (dir : gmap str RoundResult)
    (listing : list str) :
  ledger_written dir →
  listing ≡ₚ (map_to_list dir).*1 →
  (dir = ∅ → get_latest_round_result_in listing dir = Some None)
  ∧ (dir ≠ ∅ →
     ∃ r, get_latest_round_result_in listing dir = Some (Some r)
          ∧ get_round_result (rr_round_number r) dir = Some r
          ∧ ∀ f r', dir !! f = Some r' → rr_round_number r' ≤ rr_round_number r)
  ∧ (∀ r1 r3,
       get_round_result 1 dir = Some r1 →
       get_round_result 3 dir = Some r3 →
       (∀ k, k ≠ 1 → k ≠ 3 → get_round_result k dir = None) →
       get_latest_round_result_in listing dir = Some (Some r3)).
Proof.
  intros Hw Hp. destruct (get_latest_spec dir listing Hw Hp) as [Hempty Hmax].
  split; [done|]. split; [done|]. intros r1 r3 H1 H3 Hothers.
  destruct Hmax as (r & Hr & Hget & Hle).
  { intros ->. unfold get_round_result in H1. by rewrite lookup_empty in H1. }
  rewrite Hr. do 2 f_equal.
  assert (rr_round_number r3 = 3) as Hn3.
  { symmetry. apply file_name_inj, (Hw _ _ H3). }
  specialize (Hle _ _ H3). rewrite Hn3 in Hle.
  destruct (decide (rr_round_number r = 3)) as [Heq|Hne3].
  - rewrite Heq in Hget. congruence.
  - destruct (decide (rr_round_number r = 1)) as [Heq|Hne1]; [lia|].
    rewrite (Hothers _ Hne1 Hne3) in Hget. done.
Qed.

(** C10.  After [save_round_result r], [get_round_result] at the round
    number of [r] returns [r], and its answer at every other round number
    is unchanged; in a ledger built by saves only, a round number that was
    never saved has no outcome. *)
Theorem save_then_get (r : RoundResult) (dir : gmap str RoundResult) :
  get_round_result (rr_round_number r) (save_round_result r dir) = Some r
  ∧ (∀ k, k ≠ rr_round_number r →
          get_round_result k (save_round_result r dir) = get_round_result k dir)
  ∧ (∀ saved k, k ∉ rr_round_number <$> saved →
                get_round_result k (foldr save_round_result ∅ saved) = None).
Proof.
  split; [apply get_after_save|]. split.
  - intros k Hk. by apply get_after_other_save.
  - apply get_never_saved.
Qed.

(** * Worked examples *)

Lemma get_latest_is_numeric_maximum_witness :
  ledger_written ledger_1_3
  ∧ (map_to_list ledger_1_3).*1 ≡ₚ (map_to_list ledger_1_3).*1
  ∧ get_latest_round_result ledger_1_3
    = Some (Some (outcome 3 [(u "A", 2); (u "B", 1)] None)).
Proof.
  assert (Hw : ledger_written ledger_1_3).
  { apply ledger_written_save, ledger_written_save, ledger_written_empty. }
  split; [exact Hw|]. split; [reflexivity|].
  refine (proj2 (proj2 (get_latest_is_numeric_maximum ledger_1_3
                          (map_to_list ledger_1_3).*1 Hw _)) _ _ _ _ _).
  - reflexivity.
  - vm_compute. reflexivity.
  - vm_compute. reflexivity.
  - intros k Hk1 Hk3. unfold ledger_1_3.
    rewrite !get_after_other_save by (cbn; lia). apply lookup_empty.
Defined.

Lemma save_then_get_witness :
  get_round_result 2
    (save_round_result (outcome 3 [(u "A", 2); (u "B", 1)] None)
       (save_round_result (outcome 1 [(u "B", 3)] (Some (u "B"))) ∅))
  = None
  ∧ get_round_result 3 ledger_1_3
    = Some (outcome 3 [(u "A", 2); (u "B", 1)] None)
  ∧ get_round_result 1 ledger_1_3
    = Some (outcome 1 [(u "B", 3)] (Some (u "B"))).
Proof.
  split; [|split].
  - apply (proj2 (proj2 (save_then_get (outcome 0 [] None) ∅))
             [outcome 3 [(u "A", 2); (u "B", 1)] None;
              outcome 1 [(u "B", 3)] (Some (u "B"))] 2).
    apply (bool_decide_unpack _). vm_compute. exact I.
  - apply (proj1 (save_then_get (outcome 3 [(u "A", 2); (u "B", 1)] None) _)).
  - unfold ledger_1_3.
    rewrite (proj1 (proj2 (save_then_get
               (outcome 3 [(u "A", 2); (u "B", 1)] None) _)) 1) by (cbn; lia).
    apply (proj1 (save_then_get (outcome 1 [(u "B", 3)] (Some (u "B"))) _)).
Defined.

(** C2, as stated, fails: with an oracle that raises, [A] repeats a vote
    for a name that is not in the roster, and the tally gets it as a key. *)
Lemma stale_vote_enters_tally :
  ∃ self',
    run_voting_round (H := sample_unicode) oracle_fails stale_conclave
    = Some (self', [(u "Zed", 1); (u "A", 1)])
    ∧ ¬ dict_keys [(u "Zed", 1); (u "A", 1)]
        ⊆ name <$> cardinals stale_conclave.
Proof.
  eexists. split; [vm_compute; reflexivity|].
  intros Hsub. specialize (Hsub (u "Zed")). revert Hsub.
  by_evaluation.
Qed.

Lemma tally_counts_every_vote_witness :
  Forall (history_within (name <$> cardinals three_cardinals))
    (cardinals three_cardinals)
  ∧ frontrunners_within (name <$> cardinals three_cardinals) three_cardinals
  ∧ ∃ self' votes,
      run_voting_round (H := sample_unicode) (oracle_says "a") three_cardinals
      = Some (self', votes)
      ∧ py_sum (dict_values votes) = 3
      ∧ dict_keys votes ⊆ [u "A"; u "B"; u "C"].
Proof.
  destruct (tally_counts_every_vote (H := sample_unicode) (oracle_says "a")
              three_cardinals)
    as (self' & votes & r & Hrun & _ & _ & Hsum & _ & Hkeys & Hfresh).
  assert (Hempty : Forall (λ c, voting_history c = [])
                     (cardinals three_cardinals)).
  { unfold three_cardinals. cbn [cardinals].
    repeat (apply Forall_cons; split; [reflexivity|]). by apply Forall_nil. }
  destruct (Hfresh Hempty eq_refl) as [Hh Hf].
  split; [exact Hh|]. split; [exact Hf|].
  exists self', votes. split; [exact Hrun|]. split; [exact Hsum|].
  exact (proj1 (Hkeys Hh Hf)).
Defined.

Lemma error_fallback_repeats_prior_vote_witness :
  ∃ self' tally c',
    run_voting_round (H := sample_unicode) oracle_fails contested_conclave
    = Some (self', tally)
    ∧ cardinals self' !! 0%nat = Some c'
    ∧ voting_history c'
      = [earlier_vote; {| vr_round := 2; voted_for := u "A" |}]
    ∧ 1 ≤ default 0 (dict_get tally (u "A")).
Proof.
  apply (proj2 (error_fallback_repeats_prior_vote (H := sample_unicode)
                  oracle_fails contested_conclave 0
                  (cardinal_of "A" [earlier_vote]) earlier_vote
                  eq_refl eq_refl eq_refl)).
Defined.

Lemma invalid_reply_follows_layered_policy_witness :
  ∃ v,
    layered_choice undecided_conclave [u "A"; u "B"; u "C"]
      (oracle_says "nobody" 1%nat) (cardinal_of "A" []) v
    ∧ ∃ self' tally c',
        run_voting_round (H := sample_unicode) (oracle_says "nobody")
          undecided_conclave = Some (self', tally)
        ∧ cardinals self' !! 0%nat = Some c'
        ∧ voting_history c' = [{| vr_round := 2; voted_for := v |}]
        ∧ 1 ≤ default 0 (dict_get tally v).
Proof.
  destruct (invalid_reply_follows_layered_policy (H := sample_unicode)
              (oracle_says "nobody") undecided_conclave 0
              (cardinal_of "A" []) (u "nobody") eq_refl eq_refl)
    as (v & Hpolicy & _ & Hround & _).
  { intros v. vm_compute. discriminate. }
  exists v. split; [exact Hpolicy | exact Hround].
Defined.

Lemma rounds_are_numbered_consecutively_witness :
  round_number three_cardinals = 0
  ∧ ∃ final tallies,
      run_rounds (H := sample_unicode) (λ _, oracle_says "b") 0 2
        three_cardinals = Some (final, tallies)
      ∧ length tallies = 2%nat
      ∧ round_number final = 2.
Proof.
  split; [reflexivity|].
  destruct (rounds_are_numbered_consecutively (H := sample_unicode)
              (λ _, oracle_says "b") 2 three_cardinals eq_refl)
    as (final & tallies & Hrun & Hlen & Hrn & _).
  exists final, tallies. split; [exact Hrun|]. split; [exact Hlen | exact Hrn].
Defined.

(** C8, as stated, fails: two roster names with one normal form. *)
Lemma resolve_prefers_earlier_entry :
  u "jose" ∈ name <$> [cardinal_of "JOSE" []; cardinal_of "jose" []]
  ∧ find_matching_cardinal (H := sample_unicode)
      [cardinal_of "JOSE" []; cardinal_of "jose" []] (u "jose")
    = Some (u "JOSE")
  ∧ u "JOSE" ≠ u "jose".
Proof.
  split; [by_evaluation|]. split; [vm_compute; reflexivity | discriminate].
Qed.

(** [Jose Maria] written with an accented letter and two spaces. *)
Lemma resolve_round_trip_witness :
  find_matching_cardinal (H := sample_unicode)
    [cardinal_of "Pietro" []; cardinal_of "Jose Maria" []]
    (u "Jos" ++ 233%N :: u "  Maria")
  = Some (u "Jose Maria").
Proof.
  assert (Hmarks : marks (H := sample_unicode) [769%N]).
  { apply Forall_cons. split; [discriminate | by apply Forall_nil]. }
  assert (Hblank : blank (H := sample_unicode) 32%N).
  { split; [discriminate|]. apply Forall_cons. split; [done|].
    by apply Forall_nil. }
  assert (Hvariant : variant (H := sample_unicode)
                       (name (cardinal_of "Jose Maria" []))
                       (u "Jos" ++ 233%N :: u "  Maria")).
  { apply (variant_step _ (u "Jos" ++ 233%N :: u " Maria")).
    - exact (variant_accent (H := sample_unicode)
               (u "Jos") 101%N 233%N [769%N] (u " Maria") eq_refl Hmarks).
    - exact (variant_blank (H := sample_unicode)
               (u "Jos" ++ [233%N]) 32%N 32%N (u "Maria") Hblank Hblank). }
  apply (proj1 (resolve_round_trip (H := sample_unicode)
                  [cardinal_of "Pietro" []] [] (cardinal_of "Jose Maria" [])
                  (u "Jos" ++ 233%N :: u "  Maria") Hvariant
                  ltac:(intros c' [->|?%elem_of_nil]%elem_of_cons;
                        [vm_compute; discriminate | done]))).
Defined.

(** C9, as stated, fails in the first round of a simulation started on
    histories of an earlier run: the ledger has no outcome for round 0 and
    the prompt carries no prior vote. *)
Lemma prior_vote_left_out_of_prompt :
  last (voting_history (cardinal_of "A" [stale_vote])) = Some stale_vote
  ∧ get_voting_prompt (next_round stale_conclave)
      (cardinal_of "A" [stale_vote]) [u "A"; u "B"]
    = [PIntro (u "A") (u "") 0 1; PNoFrontrunners; PEligibleHeader;
       PEligible (u "A"); PEligible (u "B"); PInstructions]
  ∧ (PPreviousVote (u "Zed")
       ∉ get_voting_prompt (next_round stale_conclave)
           (cardinal_of "A" [stale_vote]) [u "A"; u "B"])
  ∧ last (voting_history (cardinal_of "B" [earlier_vote])) = Some earlier_vote
  ∧ (PPreviousVote (u "A")
       ∉ get_voting_prompt (next_round stale_conclave)
           (cardinal_of "B" [earlier_vote]) [u "A"; u "B"]).
Proof.
  split; [reflexivity|]. split; [vm_compute; reflexivity|].
  split; [|split; [reflexivity|]].
  - intros Hin. vm_compute in Hin.
    repeat (apply elem_of_cons in Hin as [Hin|Hin]; [discriminate|]).
    by apply elem_of_nil in Hin.
  - intros Hin. vm_compute in Hin.
    repeat (apply elem_of_cons in Hin as [Hin|Hin]; [discriminate|]).
    by apply elem_of_nil in Hin.
Qed.

Lemma prior_vote_needs_previous_round_witness :
  last (voting_history (cardinal_of "B" [earlier_vote])) = Some earlier_vote
  ∧ PPreviousVote (u "A")
      ∈ get_voting_prompt second_round (cardinal_of "B" [earlier_vote])
          [u "A"; u "B"].
Proof.
  split; [reflexivity|].
  apply (proj1 (prior_vote_needs_previous_round second_round
                  (cardinal_of "B" [earlier_vote]) [u "A"; u "B"]
                  earlier_vote eq_refl)).
  vm_compute. eauto.
Defined.

(** * Further properties *)


Lemma occurrences_of_recorded (k : str) (rn : Z) (cs : list Cardinal)
    (vs : list str) :
  length vs = length cs →
  Z.of_nat (length (filter (λ c, voted_for <$> last (voting_history c) = Some k)
                      (zip_with (λ c v, save_vote c rn v) cs vs)))
  = occurrences k vs.
Proof.
  unfold occurrences. revert vs.
  induction cs as [|c cs IH]; intros [|v vs] Hlen; try done.
  cbn [zip_with]. cbn in Hlen. injection Hlen as Hlen.
  specialize (IH vs Hlen).
  assert (Hlast : voted_for <$> last (voting_history (save_vote c rn v)) = Some v).
  { cbn. by rewrite last_snoc. }
  destruct (decide (v = k)) as [->|Hne].
  - rewrite !filter_cons_True by done. cbn [length]. lia.
  - rewrite !filter_cons_False; [done | done |]. rewrite Hlast. congruence.
Qed.

Section MoreRoundClaims.
Context `{UnicodeData}.

(** X1.  A reply that resolves to a roster name is recorded as a vote for
    that name, in the spelling of the roster, whatever the history and
    whatever the frontrunners: the turn appends the record of that vote to
    the history of the cardinal and adds one to the count of that name in
    the tally, and the round ends with that record last in the history and
    that name counted in the tally. *)
Theorem resolved_reply_is_recorded (turns : nat → Turn) (self : Conclave)
    (i : nat) (c : Cardinal) (raw v : str) :
  cardinals self !! i = Some c →
  completion (turns (1 + i)%nat)
    (get_voting_prompt (next_round self) c (name <$> cardinals self))
  = Some raw →
  find_matching_cardinal (cardinals self) raw = Some v →
  v ∈ name <$> cardinals self
  ∧ normalize_name v = normalize_name raw
  ∧ (∀ votes, ∃ c' votes',
       vote_turn (next_round self) (name <$> cardinals self)
         (turns (1 + i)%nat) c votes = Some (c', votes')
       ∧ name c' = name c ∧ bio c' = bio c
       ∧ political_leaning c' = political_leaning c
       ∧ voting_history c'
         = voting_history c
           ++ [{| vr_round := round_number self + 1; voted_for := v |}]
       ∧ dict_get votes' v = Some (default 0 (dict_get votes v) + 1)
       ∧ (∀ k, k ≠ v → dict_get votes' k = dict_get votes k)
       ∧ dict_keys votes'
         = (if decide (v ∈ dict_keys votes) then dict_keys votes
            else dict_keys votes ++ [v]))
  ∧ ∃ self' tally c',
      run_voting_round turns self = Some (self', tally)
      ∧ cardinals self' !! i = Some c'
      ∧ voting_history c'
        = voting_history c
          ++ [{| vr_round := round_number self + 1; voted_for := v |}]
      ∧ 1 ≤ default 0 (dict_get tally v).
Proof.
  intros Hc Hraw Hmatch.
  pose proof (find_matching_cardinal_in _ _ _ Hmatch) as Hin.
  assert (Hturn : ∀ votes,
    vote_turn (next_round self) (name <$> cardinals self) (turns (1 + i)%nat)
      c votes
    = Some (record_vote (next_round self) c votes v)).
  { intros votes. unfold vote_turn, vote_attempt. rewrite Hraw.
    cbn [mbind option_bind]. change (cardinals (next_round self))
      with (cardinals self). rewrite Hmatch.
    by rewrite decide_True by done. }
  split; [done|]. split.
  { pose proof (find_matching_first (cardinals self) raw) as Hfirst.
    rewrite Hmatch in Hfirst.
    by destruct Hfirst as (before & c0 & after & _ & -> & Hn & _). }
  split.
  - intros votes. eexists _, _. split; [apply Hturn|]. recorded_on_data.
  - destruct (recorded_turn turns self i c v Hc Hturn)
      as (self' & tally & Hrun & Hi & Hcount).
    exists self', tally, (save_vote c (round_number self + 1) v).
    split; [exact Hrun|]. split; [exact Hi|]. split; [reflexivity|].
    exact Hcount.
Qed.

(** X2.  When the oracle call raises and the cardinal has no history, the
    vote is the roster entry at the index drawn by [random.choice]: the
    error branch draws from the whole roster even when there are
    frontrunners.  The turn makes the record of that vote the only one of
    the history and adds one to the count of that name in the tally, and
    the round ends with that history and that name counted in the
    tally. *)
Theorem error_without_history_draws_from_roster (turns : nat → Turn)
    (self : Conclave) (i : nat) (c : Cardinal) :
  cardinals self !! i = Some c →
  voting_history c = [] →
  completion (turns (1 + i)%nat)
    (get_voting_prompt (next_round self) c (name <$> cardinals self)) = None →
  ∃ v,
    (name <$> cardinals self)
      !! (entropy (turns (1 + i)%nat) mod length (cardinals self))%nat = Some v
    ∧ (∀ votes, ∃ c' votes',
         vote_turn (next_round self) (name <$> cardinals self)
           (turns (1 + i)%nat) c votes = Some (c', votes')
         ∧ name c' = name c ∧ bio c' = bio c
         ∧ political_leaning c' = political_leaning c
         ∧ voting_history c'
           = [{| vr_round := round_number self + 1; voted_for := v |}]
         ∧ dict_get votes' v = Some (default 0 (dict_get votes v) + 1)
         ∧ (∀ k, k ≠ v → dict_get votes' k = dict_get votes k)
         ∧ dict_keys votes'
           = (if decide (v ∈ dict_keys votes) then dict_keys votes
              else dict_keys votes ++ [v]))
    ∧ ∃ self' tally c',
        run_voting_round turns self = Some (self', tally)
        ∧ cardinals self' !! i = Some c'
        ∧ voting_history c'
          = [{| vr_round := round_number self + 1; voted_for := v |}]
        ∧ 1 ≤ default 0 (dict_get tally v).
Proof.
  intros Hc Hhist Herr.
  assert (Hne : name <$> cardinals self ≠ []).
  { destruct (cardinals self); [done|]. done. }
  destruct (random_choice_lookup (name <$> cardinals self)
              (entropy (turns (1 + i)%nat)) Hne) as (v & Hv & Hlook & _).
  rewrite length_fmap in Hlook.
  assert (Hturn : ∀ votes,
    vote_turn (next_round self) (name <$> cardinals self) (turns (1 + i)%nat)
      c votes
    = Some (record_vote (next_round self) c votes v)).
  { intros votes. unfold vote_turn, vote_attempt. rewrite Herr.
    cbn [mbind option_bind]. unfold vote_on_error. rewrite Hhist. cbn [last].
    by rewrite Hv. }
  exists v. split; [done|].
  replace [{| vr_round := round_number self + 1; voted_for := v |}]
    with (voting_history c
          ++ [{| vr_round := round_number self + 1; voted_for := v |}])
    by by rewrite Hhist.
  split.
  - intros votes. eexists _, _. split; [apply Hturn|]. recorded_on_data.
  - destruct (recorded_turn turns self i c v Hc Hturn)
      as (self' & tally & Hrun & Hi & Hcount).
    exists self', tally, (save_vote c (round_number self + 1) v).
    split; [exact Hrun|]. split; [exact Hi|]. split; [reflexivity|].
    exact Hcount.
Qed.

(** X3.  The tally agrees with the histories: after a round, the count of
    every name in the returned tally is the number of cardinals whose last
    record is a vote for that name. *)
Theorem tally_counts_recorded_votes (turns : nat → Turn) (self : Conclave) :
  ∃ self' votes,
    run_voting_round turns self = Some (self', votes)
    ∧ ∀ k,
        default 0 (dict_get votes k)
        = Z.of_nat
            (length (filter (λ c, voted_for <$> last (voting_history c) = Some k)
                       (cardinals self'))).
Proof.
  destruct (run_voting_round_votes turns self)
    as (self' & votes & vs & Hrun & Hlen & Hcs & -> & _).
  exists self', (foldl count_vote [] vs). split; [exact Hrun|].
  intros k. rewrite Hcs, occurrences_of_recorded by done.
  by rewrite count_votes_get.
Qed.

(** X4.  A round leaves the profile of every cardinal alone and appends
    exactly one record to its history: the record carries the new round
    number and a vote that the tally of the round counts. *)
Theorem round_extends_every_history (turns : nat → Turn) (self : Conclave) :
  ∃ self' votes,
    run_voting_round turns self = Some (self', votes)
    ∧ Forall2 (λ c c',
        name c' = name c ∧ bio c' = bio c
        ∧ political_leaning c' = political_leaning c
        ∧ ∃ v, voting_history c'
               = voting_history c
                 ++ [{| vr_round := round_number self + 1; voted_for := v |}]
               ∧ 1 ≤ default 0 (dict_get votes v))
        (cardinals self) (cardinals self').
Proof.
  destruct (run_voting_round_votes turns self)
    as (self' & votes & vs & Hrun & Hlen & Hcs & -> & _).
  exists self', (foldl count_vote [] vs). split; [exact Hrun|].
  rewrite Hcs. apply Forall2_same_length_lookup_2.
  { by rewrite length_zip_with, Hlen, Nat.min_id. }
  intros i c c' Hc Hc'.
  apply lookup_zip_with_Some in Hc' as (c0 & v & -> & Hc0 & Hv).
  rewrite Hc in Hc0. injection Hc0 as <-.
  split; [done|]. split; [done|]. split; [done|]. exists v. split; [done|].
  rewrite count_votes_get. unfold occurrences. cbn.
  apply list_elem_of_lookup_2 in Hv.
  assert (0 < length (filter (λ v0, v0 = v) vs))%nat; [|lia].
  destruct (filter (λ v0, v0 = v) vs) eqn:Hf; [|cbn; lia].
  exfalso. by eapply (filter_nil_not_elem_of _ _ v Hf).
Qed.
End MoreRoundClaims.

(** ** Thresholds and frontrunners *)

Lemma required_votes_bounds (n : Z) :
  0 ≤ n → 2 * n + 1 ≤ 3 * required_votes n ≤ 2 * n + 3.
Proof.
  intros Hn. unfold required_votes.
  pose proof (Z.div_mod (n * 2) 3 ltac:(lia)) as Hdiv.
  pose proof (Z.mod_pos_bound (n * 2) 3 ltac:(lia)) as Hmod.
  lia.
Qed.

Lemma py_sum_app (xs ys : list Z) : py_sum (xs ++ ys) = py_sum xs + py_sum ys.
Proof.
  unfold py_sum. induction xs as [|x xs IH]; cbn; [done|]. rewrite IH. lia.
Qed.

Lemma py_sum_nonneg (votes : list (str * Z)) :
  Forall (λ p, 1 ≤ p.2) votes → 0 ≤ py_sum (dict_values votes).
Proof.
  unfold dict_values, py_sum.
  induction 1 as [|[k v] l Hv _ IH]; csimpl in *; lia.
Qed.

Lemma py_sum_entry (votes : list (str * Z)) (p : str * Z) :
  Forall (λ p, 1 ≤ p.2) votes → p ∈ votes → p.2 ≤ py_sum (dict_values votes).
Proof.
  intros Hpos Hin. apply list_elem_of_split in Hin as (l1 & l2 & ->).
  apply Forall_app in Hpos as [H1 H2]. apply Forall_cons in H2 as [_ H2].
  unfold dict_values. rewrite fmap_app, py_sum_app. csimpl.
  pose proof (py_sum_nonneg l1 H1). pose proof (py_sum_nonneg l2 H2).
  unfold dict_values, py_sum in *. cbn. lia.
Qed.

(** In a tally over [n] voters at most one entry reaches the threshold. *)
Lemma supermajority_entry_is_winner (n : Z) (votes : list (str * Z))
    (who : str) (count : Z) :
  tally_ok votes →
  py_sum (dict_values votes) = n →
  (who, count) ∈ votes →
  required_votes n ≤ count →
  find_winner (required_votes n) votes = Some who.
Proof.
  intros [Hnd Hpos] Hsum Hin Hge.
  pose proof (py_sum_nonneg votes Hpos) as Hn. rewrite Hsum in Hn.
  pose proof (required_votes_bounds n Hn) as Hb.
  pose proof (find_winner_spec (required_votes n) votes) as Hw.
  destruct (find_winner (required_votes n) votes) as [w|].
  - destruct Hw as (before & c & after & -> & Hbefore & Hc). f_equal.
    apply elem_of_app in Hin as [Hin|Hin].
    { rewrite Forall_forall in Hbefore. specialize (Hbefore _ Hin).
      cbn in Hbefore. lia. }
    apply elem_of_cons in Hin as [[= -> ->]|Hin]; [done|]. exfalso.
    apply Forall_app in Hpos as [H1 H2]. apply Forall_cons in H2 as [_ H2].
    pose proof (py_sum_entry after (who, count) H2 Hin) as Hafter.
    pose proof (py_sum_nonneg before H1) as Hb1.
    unfold dict_values in *. rewrite fmap_app, py_sum_app in Hsum.
    csimpl in Hsum. unfold py_sum in *. cbn in *. lia.
  - exfalso. rewrite Forall_forall in Hw. specialize (Hw _ Hin).
    cbn in Hw. lia.
Qed.

(** The cut [ratio > 0.15] on integers. *)
Lemma above_cutoff_iff (count n : Z) :
  0 < n →
  (15 # 100 < inject_Z count / inject_Z n)%Q ↔ 3 * n < 20 * count.
Proof.
  intros Hn. destruct n as [|p|p]; try lia.
  unfold Qlt, Qdiv, Qmult, Qinv, inject_Z. cbn. lia.
Qed.

Lemma length_filter_fmap {A B} (P : B → Prop) `{∀ x, Decision (P x)}
    (f : A → B) (l : list A) :
  length (filter P (f <$> l)) = length (filter (λ x, P (f x)) l).
Proof.
  induction l as [|x l IH]; [done|]. csimpl.
  destruct (decide (P (f x))).
  - rewrite !filter_cons_True by done. cbn. by rewrite IH.
  - by rewrite !filter_cons_False by done.
Qed.

Lemma few_large_shares (n : Z) (votes : list (str * Z)) :
  Forall (λ p, 1 ≤ p.2) votes →
  (3 * n + 1)
  * Z.of_nat (length (filter (λ p : str * Z, 3 * n < 20 * p.2) votes))
  ≤ 20 * py_sum (dict_values votes).
Proof.
  unfold dict_values, py_sum.
  induction 1 as [|[k v] l Hv _ IH]; csimpl in *; [lia|].
  destruct (decide (3 * n < 20 * v)).
  - rewrite filter_cons_True by done. cbn [length]. lia.
  - rewrite filter_cons_False by done. lia.
Qed.

Section FrontrunnerClaims.
Context `{UnicodeData}.

(** X5.  The winner of a round does not depend on the order of the tally:
    every entry whose count reaches [(n * 2) // 3 + 1] is the winner that
    the round persists, so no two candidates can reach the threshold. *)
Theorem supermajority_is_unique (turns : nat → Turn) (self : Conclave) :
  ∃ self' votes r,
    run_voting_round turns self = Some (self', votes)
    ∧ get_round_result (round_number self') (round_results self') = Some r
    ∧ ∀ who count,
        (who, count) ∈ votes →
        (Z.of_nat (length (cardinals self)) * 2) `div` 3 + 1 ≤ count →
        rr_winner r = Some who.
Proof.
  destruct (run_voting_round_spec turns self)
    as (cs & votes & _ & Hrun & _ & Hsum & Hok & _).
  eexists _, votes, (outcome_of self votes). split; [exact Hrun|].
  cbn [round_number round_results]. split; [apply get_after_save|].
  intros who count Hin Hge. cbn [outcome_of rr_winner].
  by apply (supermajority_entry_is_winner _ _ who count).
Qed.

(** X6.  After a round there are at most six frontrunners; each is a
    candidate of the tally with more than 15% of the votes, in the order
    of the tally; and a winner of the round is among them. *)
Theorem frontrunners_are_few (turns : nat → Turn) (self : Conclave) :
  ∃ self' votes,
    run_voting_round turns self = Some (self', votes)
    ∧ (length (frontrunners self') ≤ 6)%nat
    ∧ (∀ who ratio, (who, ratio) ∈ frontrunners self' →
         ∃ count, (who, count) ∈ votes
                  ∧ 3 * Z.of_nat (length (cardinals self)) < 20 * count)
    ∧ dict_keys (frontrunners self') `sublist_of` dict_keys votes
    ∧ ∀ who count,
        (who, count) ∈ votes →
        (Z.of_nat (length (cardinals self)) * 2) `div` 3 + 1 ≤ count →
        who ∈ dict_keys (frontrunners self').
Proof.
  destruct (run_voting_round_spec turns self)
    as (cs & votes & _ & Hrun & _ & Hsum & [Hnd Hpos] & _).
  eexists _, votes. split; [exact Hrun|]. cbn [frontrunners].
  set (n := Z.of_nat (length (cardinals self))) in *.
  unfold spec_frontrunners. rewrite (filter_all (λ p, 1 ≤ p.2)) by done.
  destruct (decide (votes = [])) as [->|Hne].
  { cbn. split; [lia|]. split; [by intros who ratio ?%elem_of_nil|].
    split; [done|]. by intros who count ?%elem_of_nil. }
  assert (Hn : 0 < n).
  { pose proof (tally_sum_pos votes Hpos Hne). lia. }
  split; [|split; [|split]].
  - rewrite length_filter_fmap.
    rewrite (list_filter_iff _ (λ p : str * Z, 3 * n < 20 * p.2)).
    + pose proof (few_large_shares n votes Hpos) as Hfew.
      rewrite Hsum in Hfew. nia.
    + intros [who count]. cbn. by apply above_cutoff_iff.
  - intros who ratio [Hcut Hin]%list_elem_of_filter.
    apply list_elem_of_fmap in Hin as ([who' count] & [= -> ->] & Hin).
    exists count. split; [done|]. by apply above_cutoff_iff in Hcut.
  - unfold dict_keys. etrans; [apply fmap_sublist, sublist_filter|].
    rewrite <- list_fmap_compose. done.
  - intros who count Hin Hge.
    pose proof (required_votes_bounds n ltac:(lia)) as Hb.
    unfold required_votes in Hb.
    apply list_elem_of_fmap. exists (who, (inject_Z count / inject_Z n)%Q).
    split; [done|]. apply list_elem_of_filter. split.
    + cbn. apply above_cutoff_iff; [done|]. lia.
    + apply list_elem_of_fmap. by exists (who, count).
Qed.

End FrontrunnerClaims.

Lemma py_sum_of_nonneg (xs : list Z) :
  Forall (λ x, 0 ≤ x) xs → 0 ≤ py_sum xs.
Proof. unfold py_sum. induction 1 as [|x l Hx _ IH]; cbn in *; lia. Qed.

Lemma py_sum_zero (xs : list Z) :
  Forall (λ x, 0 ≤ x) xs → py_sum xs = 0 ↔ Forall (λ x, x = 0) xs.
Proof.
  unfold py_sum. induction 1 as [|x l Hx Hl IH]; cbn.
  - split; [intros _; by apply Forall_nil | done].
  - assert (0 ≤ foldr Z.add 0 l) by (by apply py_sum_of_nonneg).
    rewrite Forall_cons, <- IH. lia.
Qed.

(** X8.  On a tally whose counts are not negative,
    [_update_frontrunners] raises (a division by zero) exactly when the
    tally is not empty and every count is zero; otherwise it returns
    entries of the tally, in its order, each with a count above zero. *)
Theorem update_frontrunners_raises_iff (votes : list (str * Z)) :
  Forall (λ count, 0 ≤ count) (dict_values votes) →
  (update_frontrunners votes = None
   ↔ votes ≠ [] ∧ Forall (λ count, count = 0) (dict_values votes))
  ∧ ∀ fs, update_frontrunners votes = Some fs →
          dict_keys fs `sublist_of` dict_keys votes
          ∧ ∀ who ratio, (who, ratio) ∈ fs →
              ∃ count, (who, count) ∈ votes ∧ 0 < count.
Proof.
  intros Hpos.
  pose proof (py_sum_zero _ Hpos) as Hzero.
  destruct (decide (votes = [])) as [->|Hne].
  { cbn. split; [split; [done | by intros [? _]]|]. intros fs [= <-].
    split; [done|]. by intros who ratio ?%elem_of_nil. }
  rewrite <- Hzero. clear Hzero.
  assert (Hnn : 0 ≤ py_sum (dict_values votes)) by by apply py_sum_of_nonneg.
  unfold update_frontrunners. cbv zeta.
  revert Hnn. generalize (py_sum (dict_values votes)). intros total Hnn.
  assert (total = 0 ∨ total ≠ 0) as [Hz|Hnz] by lia.
  - assert (Hnone : mapM (λ '(who, count),
               if decide (total = 0) then None
               else Some (who, inject_Z count / inject_Z total)%Q) votes
             = None).
    { apply mapM_None_2. destruct votes as [|[who count] votes]; [done|].
      apply Exists_cons_hd. by rewrite decide_True. }
    rewrite Hnone. cbn. split; [done|]. done.
  - assert (Hm : mapM (λ '(who, count),
                   if decide (total = 0) then None
                   else Some (who, inject_Z count / inject_Z total)%Q) votes
                 = Some ((λ p, (p.1, inject_Z p.2 / inject_Z total)%Q) <$> votes)).
    { apply mapM_Some_2, Forall2_fmap_r, Forall_Forall2_diag, Forall_forall.
      intros [who count] _. unfold compose. cbn. by rewrite decide_False. }
    rewrite Hm. cbn [mbind option_bind]. split.
    + split; [done | by intros [_ ?]].
    + intros fs [= <-]. split.
      * unfold dict_keys.
        etrans; [apply fmap_sublist, sublist_filter|].
        rewrite <- list_fmap_compose. done.
      * intros who ratio [Hcut Hin]%list_elem_of_filter.
        apply list_elem_of_fmap in Hin as ([who' count] & Heq & Hin).
        cbn in Heq. injection Heq as -> ->.
        exists count. split; [done|]. cbn in Hcut.
        apply Qltb_lt in Hcut.
        assert (Hq : (0 < inject_Z count / inject_Z total)%Q).
        { eapply Qlt_trans; [|exact Hcut]. done. }
        destruct (decide (0 < count)) as [|Hle]; [done|]. exfalso.
        assert (count = 0) as ->.
        { assert (0 ≤ count); [|lia].
          apply (proj1 (Forall_forall (λ count, 0 ≤ count) (dict_values votes))
                   Hpos).
          unfold dict_values. apply list_elem_of_fmap.
          by exists (who', count). }
        revert Hq. unfold Qdiv. rewrite Qmult_0_l. apply Qlt_irrefl.
Qed.

Lemma update_frontrunners_raises_iff_witness :
  update_frontrunners [(u "A", 0); (u "B", 0)] = None.
Proof.
  assert (Hpos : Forall (λ count, 0 ≤ count)
                   (dict_values [(u "A", 0); (u "B", 0)])).
  { repeat (apply Forall_cons; split; [done|]). by apply Forall_nil. }
  apply (proj1 (update_frontrunners_raises_iff _ Hpos)).
  split; [done|].
  repeat (apply Forall_cons; split; [done|]). by apply Forall_nil.
Defined.

(** ** The simulation loop *)

Section SimulationClaims.
Context `{UnicodeData}.

(** The loop with enough fuel: it returns, it stops at the first round
    with a winner or at the cap, and it keeps what was in the ledger. *)
Lemma simulation_loop_spec (turns : nat → nat → Turn) (max_rounds : Z)
    (fuel : nat) :
  ∀ (k : nat) (self : Conclave),
  max_rounds - round_number self ≤ Z.of_nat fuel →
  ∃ final,
    simulation_loop fuel turns k max_rounds self = Some final
    ∧ round_number self ≤ round_number final
    ∧ round_number final ≤ Z.max (round_number self) max_rounds
    ∧ name <$> cardinals final = name <$> cardinals self
    ∧ (∀ j, j ≤ round_number self →
         get_round_result j (round_results final)
         = get_round_result j (round_results self))
    ∧ (pope_elected self = true ∨ max_rounds ≤ round_number self →
       final = self)
    ∧ (pope_elected self = false →
       (∀ j, round_number self < j < round_number final →
          ∃ r, get_round_result j (round_results final) = Some r
               ∧ rr_winner r = None)
       ∧ ((pope_elected final = true
           ∧ round_number self < round_number final
           ∧ ∃ r w, get_round_result (round_number final) (round_results final)
                    = Some r
                    ∧ rr_winner r = Some w ∧ winner final = Some w)
          ∨ (pope_elected final = false
             ∧ winner final = winner self
             ∧ round_number final = Z.max (round_number self) max_rounds
             ∧ (round_number self < round_number final →
                ∃ r, get_round_result (round_number final) (round_results final)
                     = Some r
                     ∧ rr_winner r = None)))).
Proof.
  induction fuel as [|fuel IH]; intros k self Hfuel.
  - exists self. cbn [simulation_loop].
    destruct (Z.ltb_spec (round_number self) max_rounds) as [Hlt|Hge];
      [lia|]. rewrite andb_false_r.
    split; [done|]. split; [lia|]. split; [lia|]. split; [done|].
    split; [done|]. split; [done|]. intros Hpe. split; [intros j; lia|].
    right. split; [done|]. split; [done|]. split; [lia|]. lia.
  - cbn [simulation_loop].
    destruct (pope_elected self) eqn:Hpe; cbn [negb andb].
    { exists self. split; [done|]. split; [lia|]. split; [lia|].
      split; [done|]. split; [done|]. split; [done|]. done. }
    destruct (Z.ltb_spec (round_number self) max_rounds) as [Hlt|Hge].
    2:{ exists self. split; [done|]. split; [lia|]. split; [lia|].
        split; [done|]. split; [done|]. split; [done|]. intros _.
        split; [intros j; lia|]. right. split; [done|]. split; [done|].
        split; [lia|]. lia. }
    destruct (run_voting_round_votes (turns k) self)
      as (self' & votes & vs & Hrun & Hlen & Hcs & _ & Hrn & Hledger & _
          & Hpe' & Hwin' & _).
    rewrite Hrun. cbn [mbind option_bind].
    destruct (IH (S k) self') as (final & Hloop & Hlo & Hhi & Hnames & Hkeep
                                  & Hstop & Hrun').
    { rewrite Hrn. lia. }
    exists final. split; [exact Hloop|].
    assert (Hnames' : name <$> cardinals self' = name <$> cardinals self).
    { rewrite Hcs. clear - Hlen. revert vs Hlen.
      induction (cardinals self) as [|c cs IHc]; intros [|v vs] Hlen;
        try done. cbn in Hlen. injection Hlen as Hlen. csimpl.
      by rewrite IHc. }
    assert (Hsaved : get_round_result (round_number self + 1)
                       (round_results self') = Some (outcome_of self votes)).
    { rewrite Hledger. apply (get_after_save (outcome_of self votes)). }
    split; [lia|]. split; [lia|]. split; [by rewrite Hnames|].
    split.
    { intros j Hj. rewrite Hkeep by lia. rewrite Hledger.
      apply get_after_other_save. cbn. lia. }
    split; [intros [?|?]; [done | lia]|]. intros _.
    destruct (rr_winner (outcome_of self votes)) as [w|] eqn:Hw.
    + rewrite (Hstop (or_introl Hpe')) in *. split; [intros j; lia|].
      left. split; [done|]. split; [lia|].
      exists (outcome_of self votes), w. rewrite Hrn. done.
    + rewrite Hpe in Hpe'. destruct (Hrun' Hpe') as (Hno & Hend). split.
      * intros j Hj. destruct (decide (j = round_number self + 1)) as [->|Hne].
        -- exists (outcome_of self votes). split; [|done].
           rewrite Hkeep by lia. done.
        -- apply Hno. lia.
      * destruct Hend as [(He & Hlt' & r & w & Hr & Hrw & Hfw)
                         |(He & Hfw & Hfin & Hlast)].
        -- left. split; [done|]. split; [lia|]. eauto.
        -- right. split; [done|]. split; [congruence|]. split; [lia|].
           intros _.
           destruct (decide (round_number self' < round_number final))
             as [Hmore|Hsame]; [by apply Hlast|].
           assert (round_number final = round_number self + 1) as -> by lia.
           exists (outcome_of self votes). split; [|done].
           rewrite Hkeep by lia. done.
Qed.

(** X9.  [run_simulation] always returns, with [self.winner] of the state
    it ends in, and never passes the round cap.  From a state without an
    elected pope it stops at the first round that has a winner and returns
    that winner; otherwise it runs to the cap, no round of the run has a
    winner, and it returns the winner it started with. *)
Theorem simulation_stops_at_first_winner (turns : nat → nat → Turn)
    (max_rounds : Z) (self : Conclave) :
  pope_elected self = false →
  ∃ final,
    run_simulation turns max_rounds self = Some (final, winner final)
    ∧ round_number self ≤ round_number final
      ≤ Z.max (round_number self) max_rounds
    ∧ name <$> cardinals final = name <$> cardinals self
    ∧ (∀ j, round_number self < j < round_number final →
         ∃ r, get_round_result j (round_results final) = Some r
              ∧ rr_winner r = None)
    ∧ ((pope_elected final = true
        ∧ ∃ r w, get_round_result (round_number final) (round_results final)
                 = Some r
                 ∧ rr_winner r = Some w ∧ winner final = Some w)
       ∨ (pope_elected final = false
          ∧ winner final = winner self
          ∧ round_number final = Z.max (round_number self) max_rounds
          ∧ (round_number self < round_number final →
             ∃ r, get_round_result (round_number final) (round_results final)
                  = Some r
                  ∧ rr_winner r = None))).
Proof.
  intros Hpe.
  destruct (simulation_loop_spec turns max_rounds
              (Z.to_nat (max_rounds - round_number self)) 0%nat self)
    as (final & Hloop & Hlo & Hhi & Hnames & _ & _ & Hrun); [lia|].
  destruct (Hrun Hpe) as (Hno & Hend).
  exists final. unfold run_simulation. rewrite Hloop.
  split; [done|]. split; [lia|]. split; [done|]. split; [done|].
  destruct Hend as [(He & _ & Hw)|Hend]; [left | right]; done.
Qed.

(** X10.  With a pope already elected, or with the round number at or past
    the cap, [run_simulation] runs no round: the state and the ledger are
    untouched and the winner held by the state is returned. *)
Theorem simulation_runs_no_round_past_the_end (turns : nat → nat → Turn)
    (max_rounds : Z) (self : Conclave) :
  pope_elected self = true ∨ max_rounds ≤ round_number self →
  run_simulation turns max_rounds self = Some (self, winner self).
Proof.
  intros Hend.
  destruct (simulation_loop_spec turns max_rounds
              (Z.to_nat (max_rounds - round_number self)) 0%nat self)
    as (final & Hloop & _ & _ & _ & _ & Hstop & _); [lia|].
  unfold run_simulation. rewrite Hloop. by rewrite (Hstop Hend).
Qed.

End SimulationClaims.

Lemma simulation_stops_at_first_winner_witness :
  pope_elected three_cardinals = false
  ∧ ∃ final,
      run_simulation (H := sample_unicode) (λ _, oracle_says "b") 30
        three_cardinals = Some (final, winner final)
      ∧ round_number final ≤ 30.
Proof.
  split; [reflexivity|].
  destruct (simulation_stops_at_first_winner (H := sample_unicode)
              (λ _, oracle_says "b") 30 three_cardinals eq_refl)
    as (final & Hrun & [_ Hhi] & _).
  exists final. split; [exact Hrun|]. cbn in Hhi. lia.
Defined.

Lemma simulation_runs_no_round_past_the_end_witness :
  run_simulation (H := sample_unicode) (λ _, oracle_fails) 2 second_round
  = Some (second_round, None).
Proof.
  apply (simulation_runs_no_round_past_the_end (H := sample_unicode)
           (λ _, oracle_fails) 2 second_round).
  right. cbn. lia.
Defined.

(** ** A unanimous oracle *)

Lemma required_votes_le (n : Z) : 1 ≤ n → required_votes n ≤ n.
Proof.
  intros Hn. unfold required_votes.
  pose proof (Z.div_mod (n * 2) 3 ltac:(lia)) as Hdiv.
  pose proof (Z.mod_pos_bound (n * 2) 3 ltac:(lia)) as Hmod.
  lia.
Qed.

Lemma count_votes_same (v : str) (k : nat) (m : Z) :
  foldl count_vote [(v, m)] (replicate k v) = [(v, m + Z.of_nat k)].
Proof.
  revert m. induction k as [|k IH]; intros m; cbn [replicate foldl].
  - f_equal. f_equal. lia.
  - replace (m + Z.of_nat (S k)) with (m + 1 + Z.of_nat k) by lia.
    rewrite <- IH. f_equal. unfold count_vote. cbn.
    by rewrite !decide_True by done.
Qed.

Lemma save_vote_inj (c : Cardinal) (rn : Z) (v w : str) :
  save_vote c rn v = save_vote c rn w → v = w.
Proof.
  intros Heq. apply (f_equal voting_history) in Heq. cbn in Heq.
  apply app_inj_tail in Heq as [_ Heq]. by injection Heq.
Qed.

Section UnanimousClaims.
Context `{UnicodeData}.

(** X11.  When every reply of the first round resolves to the same roster
    name, that round's tally is the single entry of that name with all the
    votes, the name is elected, and [run_simulation] returns it after one
    round. *)
Theorem unanimous_reply_elects_in_one_round (turns : nat → nat → Turn)
    (max_rounds : Z) (self : Conclave) (v : str) :
  cardinals self ≠ [] →
  pope_elected self = false →
  round_number self < max_rounds →
  (∀ i c, cardinals self !! i = Some c →
     ∃ raw,
       completion (turns 0%nat (1 + i)%nat)
         (get_voting_prompt (next_round self) c (name <$> cardinals self))
       = Some raw
       ∧ find_matching_cardinal (cardinals self) raw = Some v) →
  ∃ final,
    run_voting_round (turns 0%nat) self
    = Some (final, [(v, Z.of_nat (length (cardinals self)))])
    ∧ run_simulation turns max_rounds self = Some (final, Some v)
    ∧ round_number final = round_number self + 1
    ∧ get_round_result (round_number self + 1) (round_results final)
      = Some {| rr_round_number := round_number self + 1;
                rr_votes := [(v, Z.of_nat (length (cardinals self)))];
                rr_winner := Some v |}.
Proof.
  intros Hne Hpe Hlt Hreply.
  destruct (run_voting_round_votes (turns 0%nat) self)
    as (final & votes & vs & Hrun & Hlen & Hcs & -> & Hrn & Hledger & _
        & Hpe' & Hwin' & Hturn).
  assert (Hvs : vs = replicate (length (cardinals self)) v).
  { rewrite <- Hlen. apply list_eq_same_length with (length vs);
      [by rewrite length_replicate | done |].
    intros i x y Hi Hx Hy. apply lookup_replicate in Hy as [-> _].
    destruct (lookup_lt_is_Some_2 (cardinals self) i) as [c Hc]; [lia|].
    destruct (Hreply i c Hc) as (raw & Hraw & Hmatch).
    specialize (Hturn i c x Hc Hx []).
    unfold vote_turn, vote_attempt in Hturn. rewrite Hraw in Hturn.
    cbn [mbind option_bind] in Hturn.
    change (cardinals (next_round self)) with (cardinals self) in Hturn.
    rewrite Hmatch in Hturn.
    rewrite decide_True in Hturn
      by (by eapply find_matching_cardinal_in).
    apply (inj Some), (f_equal fst) in Hturn. unfold record_vote in Hturn.
    cbn [fst] in Hturn. symmetry. exact (save_vote_inj _ _ _ _ Hturn). }
  assert (Htally : foldl count_vote [] vs
                   = [(v, Z.of_nat (length (cardinals self)))]).
  { rewrite Hvs. destruct (cardinals self) as [|c0 cs0]; [done|].
    cbn [length replicate foldl]. unfold count_vote at 2. cbn.
    rewrite count_votes_same. f_equal. f_equal. lia. }
  rewrite Htally in *.
  assert (Hwinner : rr_winner (outcome_of self
                      [(v, Z.of_nat (length (cardinals self)))]) = Some v).
  { cbn. destruct (Z.geb_spec (Z.of_nat (length (cardinals self)))
                     (required_votes (Z.of_nat (length (cardinals self)))))
      as [_|Hbad]; [done|].
    pose proof (required_votes_le (Z.of_nat (length (cardinals self)))).
    destruct (cardinals self); [done|]. cbn [length] in *. lia. }
  rewrite Hwinner in Hpe', Hwin'.
  exists final. split; [exact Hrun|]. split; [|split; [exact Hrn|]].
  - unfold run_simulation.
    destruct (Z.to_nat (max_rounds - round_number self)) as [|fuel] eqn:Hfuel;
      [lia|].
    cbn [simulation_loop]. rewrite Hpe. cbn [negb andb].
    destruct (Z.ltb_spec (round_number self) max_rounds); [|lia].
    rewrite Hrun. cbn [mbind option_bind].
    assert (Hstop : simulation_loop fuel turns 1 max_rounds final = Some final).
    { destruct fuel; cbn [simulation_loop]; by rewrite Hpe'. }
    rewrite Hstop. cbn. by rewrite Hwin'.
  - rewrite Hledger.
    rewrite (get_after_save (outcome_of self _)).
    unfold outcome_of at 1. do 2 f_equal. exact Hwinner.
Qed.
End UnanimousClaims.

(** The scenario of three cardinals and an oracle that always says [a]. *)
Lemma unanimous_reply_elects_in_one_round_witness :
  ∃ final,
    run_simulation (H := sample_unicode) (λ _, oracle_says "a") 30
      three_cardinals = Some (final, Some (u "A"))
    ∧ round_number final = 1
    ∧ get_round_result 1 (round_results final)
      = Some (outcome 1 [(u "A", 3)] (Some (u "A"))).
Proof.
  destruct (unanimous_reply_elects_in_one_round (H := sample_unicode)
              (λ _, oracle_says "a") 30 three_cardinals (u "A"))
    as (final & _ & Hsim & Hrn & Hget).
  - done.
  - reflexivity.
  - cbn. lia.
  - intros i c Hc. exists (u "a"). split; [reflexivity|].
    vm_compute. reflexivity.
  - exists final. split; [exact Hsim|]. split; [exact Hrn | exact Hget].
Defined.

Lemma resolved_reply_is_recorded_witness :
  ∃ self' tally c',
    run_voting_round (H := sample_unicode) (oracle_says "b")
      contested_conclave = Some (self', tally)
    ∧ cardinals self' !! 0%nat = Some c'
    ∧ voting_history c'
      = [earlier_vote; {| vr_round := 2; voted_for := u "B" |}]
    ∧ 1 ≤ default 0 (dict_get tally (u "B")).
Proof.
  apply (resolved_reply_is_recorded (H := sample_unicode) (oracle_says "b")
           contested_conclave 0 (cardinal_of "A" [earlier_vote])
           (u "b") (u "B") eq_refl eq_refl).
  vm_compute. reflexivity.
Defined.

Lemma error_without_history_draws_from_roster_witness :
  ∃ v,
    (name <$> cardinals undecided_conclave) !! 0%nat = Some v
    ∧ ∃ self' tally c',
        run_voting_round (H := sample_unicode) oracle_fails undecided_conclave
        = Some (self', tally)
        ∧ cardinals self' !! 1%nat = Some c'
        ∧ voting_history c' = [{| vr_round := 2; voted_for := v |}]
        ∧ 1 ≤ default 0 (dict_get tally v).
Proof.
  destruct (error_without_history_draws_from_roster (H := sample_unicode)
              oracle_fails undecided_conclave 1 (cardinal_of "B" [])
              eq_refl eq_refl eq_refl) as (v & Hv & _ & Hround).
  exists v. split; [exact Hv | exact Hround].
Defined.


(** ** More of the ledger *)

(** X12.  The name of the file of a round matches the pattern that
    [get_latest_round_result] globs, its key is the round number again,
    negative numbers and zero included, and two rounds never share a
    file. *)
Theorem file_name_round_trip (n : Z) :
  glob_match (file_name n) = true
  ∧ round_key (file_name n) = Some n
  ∧ ∀ m, file_name m = file_name n → m = n.
Proof.
  split; [apply glob_match_file_name|]. split; [apply round_key_file_name|].
  intros m. apply file_name_inj.
Qed.

(** X13.  Saving an outcome replaces the one stored for the same round
    number: only the last save counts, the other rounds are as before, and
    saving the same outcome twice changes nothing. *)
Theorem save_overwrites_same_round (r1 r2 : RoundResult)
    (dir : gmap str RoundResult) :
  rr_round_number r1 = rr_round_number r2 →
  save_round_result r2 (save_round_result r1 dir) = save_round_result r2 dir
  ∧ get_round_result (rr_round_number r1)
      (save_round_result r2 (save_round_result r1 dir)) = Some r2
  ∧ save_round_result r2 (save_round_result r2 dir) = save_round_result r2 dir.
Proof.
  intros Heq. unfold save_round_result, get_round_result. rewrite Heq.
  rewrite !insert_insert_eq. split; [done|]. split; [|done].
  apply lookup_insert_eq.
Qed.

Lemma save_overwrites_same_round_witness :
  get_round_result 3
    (save_round_result (outcome 3 [(u "B", 3)] (Some (u "B"))) ledger_1_3)
  = Some (outcome 3 [(u "B", 3)] (Some (u "B"))).
Proof.
  apply (proj1 (proj2 (save_overwrites_same_round
                         (outcome 3 [(u "A", 2); (u "B", 1)] None)
                         (outcome 3 [(u "B", 3)] (Some (u "B")))
                         (save_round_result
                            (outcome 1 [(u "B", 3)] (Some (u "B"))) ∅)
                         eq_refl))).
Defined.

(** X14.  After an outcome is saved whose round number is at least every
    stored one, [get_latest_round_result] returns it, in whatever order the
    directory is listed. *)
Theorem latest_after_save (r : RoundResult) (dir : gmap str RoundResult)
    (listing : list str) :
  ledger_written dir →
  (∀ f r', dir !! f = Some r' → rr_round_number r' ≤ rr_round_number r) →
  listing ≡ₚ (map_to_list (save_round_result r dir)).*1 →
  get_latest_round_result_in listing (save_round_result r dir) = Some (Some r).
Proof.
  intros Hw Hmax Hp.
  destruct (get_latest_spec (save_round_result r dir) listing
              (ledger_written_save r dir Hw) Hp) as [_ Hlatest].
  destruct Hlatest as (r0 & Hr0 & Hget & Hle).
  { unfold save_round_result. apply insert_non_empty. }
  rewrite Hr0. do 2 f_equal.
  assert (Hr : save_round_result r dir !! file_name (rr_round_number r) = Some r)
    by apply lookup_insert_eq.
  specialize (Hle _ _ Hr).
  destruct (decide (rr_round_number r0 = rr_round_number r)) as [Heq|Hne].
  - rewrite Heq in Hget. unfold get_round_result in Hget. congruence.
  - rewrite get_after_other_save in Hget by done.
    specialize (Hmax _ _ Hget). lia.
Qed.

Lemma latest_after_save_witness :
  get_latest_round_result_in
    (map_to_list (save_round_result (outcome 7 [] None) ledger_1_3)).*1
    (save_round_result (outcome 7 [] None) ledger_1_3)
  = Some (Some (outcome 7 [] None)).
Proof.
  apply (latest_after_save (outcome 7 [] None) ledger_1_3).
  - apply ledger_written_save, ledger_written_save, ledger_written_empty.
  - intros f r' Hr'.
    assert (Hw : ledger_written ledger_1_3)
      by apply ledger_written_save, ledger_written_save, ledger_written_empty.
    pose proof (Hw f r' Hr') as ->. unfold ledger_1_3 in Hr'.
    unfold save_round_result in Hr'.
    apply lookup_insert_Some in Hr' as [[_ <-]|[_ Hr']]; [cbn; lia|].
    apply lookup_insert_Some in Hr' as [[_ <-]|[_ Hr']]; [cbn; lia|].
    by rewrite lookup_empty in Hr'.
  - reflexivity.
Defined.

Lemma to_string_inv (s : str) (t : string) : to_string s = Some t → s = u t.
Proof.
  unfold to_string, u. intros Hs.
  destruct (mapM to_ascii s) as [l|] eqn:Hl; [|done].
  cbn in Hs. injection Hs as <-. rewrite list_ascii_of_string_of_list_ascii.
  apply mapM_Some_1 in Hl.
  induction Hl as [|c a s l Hca _ IH]; [done|].
  rewrite fmap_cons. f_equal; [|done].
  unfold to_ascii in Hca. destruct (N.ltb_spec c 256); [|done].
  injection Hca as <-. by rewrite N_ascii_embedding.
Qed.

Lemma uint_of_string_digits (t : string) (d : Decimal.uint) :
  NilEmpty.uint_of_string t = Some d → Forall (λ c, (48 ≤ c ≤ 57)%N) (u t).
Proof.
  revert d. induction t as [|a t IH]; intros d Hd; [by apply Forall_nil|].
  cbn in Hd. destruct (NilEmpty.uint_of_string t) as [d0|] eqn:Ht; [|done].
  apply uint_of_char_spec in Hd.
  change (u (String a t)) with (N_of_ascii a :: u t).
  apply Forall_cons. split; [|by eapply IH].
  decompose [or and] Hd; subst; cbn; lia.
Qed.

(** What [py_int] accepts is made of signs and digits. *)
Lemma py_int_chars (s : str) (z : Z) :
  py_int s = Some z →
  s ≠ [] ∧ Forall (λ c, c = 43%N ∨ c = 45%N ∨ (48 ≤ c ≤ 57)%N) s.
Proof.
  destruct s as [|c s']; [done|]. intros Hz. split; [done|].
  assert (Hdigits : ∀ t d, NilZero.uint_of_string t = Some d →
            Forall (λ c, c = 43%N ∨ c = 45%N ∨ (48 ≤ c ≤ 57)%N) (u t)).
  { intros t d Hd. eapply Forall_impl.
    - apply (uint_of_string_digits t d). by destruct t.
    - intros c0 Hc0. by right; right. }
  destruct (decide (c = 43%N)) as [->|Hne].
  - unfold py_int in Hz.
    destruct (to_string s') as [t|] eqn:Ht; [|done]. cbn in Hz.
    destruct (NilZero.uint_of_string t) as [d|] eqn:Hd; [|done].
    apply Forall_cons. split; [by left|].
    apply to_string_inv in Ht as ->. by eapply Hdigits.
  - assert (Hgo : (t ← to_string (c :: s');
                   d ← NilZero.int_of_string t; Some (Z.of_int d)) = Some z).
    { revert Hz. unfold py_int. destruct c as [|q]; [done|].
      do 6 (destruct q as [q|q|]; try done). }
    destruct (to_string (c :: s')) as [t|] eqn:Ht; [|done]. cbn in Hgo.
    apply to_string_inv in Ht. rewrite Ht.
    destruct t as [|a t]; [done|].
    unfold NilZero.int_of_string in Hgo.
    destruct (Ascii.eqb_spec a "-") as [->|Ha].
    + change (u (String "-" t)) with (45%N :: u t).
      apply Forall_cons. split; [by right; left|].
      destruct (NilZero.uint_of_string t) as [d|] eqn:Hd; [|done].
      by eapply Hdigits.
    + destruct (NilZero.uint_of_string (String a t)) as [d|] eqn:Hd; [|done].
      by eapply Hdigits.
Qed.

Lemma py_int_not_an_int (field : str) : not_an_int field → py_int field = None.
Proof.
  intros Hbad. destruct (py_int field) as [z|] eqn:Hz; [|done].
  apply py_int_chars in Hz as [Hne Hall].
  destruct Hbad as [->|(ch & Hin & Hrange & Hdigit & Hplus & Hminus & _)];
    [done|].
  rewrite Forall_forall in Hall.
  destruct (Hall ch Hin) as [?|[?|?]]; done.
Qed.

(** X15.  A file that matches the pattern but whose field between the
    first two underscores of the stem is empty, or holds a visible ASCII
    character other than a digit, a sign or an underscore, makes
    [get_latest_round_result] raise, whatever else the directory holds. *)
Theorem latest_raises_on_foreign_file (dir : gmap str RoundResult)
    (listing : list str) (f field : str) :
  f ∈ listing →
  glob_match f = true →
  py_split_on 95%N (path_stem f) !! 1%nat = Some field →
  not_an_int field →
  get_latest_round_result_in listing dir = None.
Proof.
  intros Hin Hglob Hfield Hbad. unfold get_latest_round_result_in.
  assert (Hkey : round_key f = None).
  { unfold round_key. rewrite Hfield. cbn [mbind option_bind].
    by apply py_int_not_an_int. }
  assert (Hf : f ∈ filter (λ f, glob_match f = true) listing).
  { by apply list_elem_of_filter. }
  assert (Hnone : mapM (λ f, k ← round_key f; Some (f, k))
                    (filter (λ f, glob_match f = true) listing) = None).
  { apply mapM_None_2, Exists_exists. exists f. split; [done|].
    by rewrite Hkey. }
  destruct (filter (λ f, glob_match f = true) listing) as [|f0 fs];
    [by apply elem_of_nil in Hf|].
  by rewrite Hnone.
Qed.

Lemma latest_raises_on_foreign_file_witness :
  get_latest_round_result_in [file_name 1; u "round_final_results.json"]
    ledger_1_3 = None.
Proof.
  apply (latest_raises_on_foreign_file ledger_1_3
           [file_name 1; u "round_final_results.json"]
           (u "round_final_results.json") (u "final")).
  - by_evaluation.
  - vm_compute. reflexivity.
  - vm_compute. reflexivity.
  - right. exists 102%N. split; [by_evaluation|].
    unfold never_in_int. lia.
Defined.

(** ** The prompt of the next round *)

Section PromptClaims.
Context `{UnicodeData}.

(** X16.  What a round leaves behind is what the prompts of the next round
    show: the frontrunner set computed from the round (or the marker when
    it is empty), the tally of the round entry by entry, and, for each
    cardinal, the vote it has just cast. *)
Theorem next_prompt_reports_the_round (turns : nat → Turn) (self : Conclave)
    (eligible : list str) :
  ∃ self' votes,
    run_voting_round turns self = Some (self', votes)
    ∧ ∀ c', c' ∈ cardinals self' →
        ∃ v,
          last (voting_history c')
          = Some {| vr_round := round_number self + 1; voted_for := v |}
          ∧ get_voting_prompt (next_round self') c' eligible
            = [PIntro (name c') (bio c') (political_leaning c')
                 (round_number self + 1 + 1)]
              ++ match spec_frontrunners
                         (Z.of_nat (length (cardinals self))) votes with
                 | [] => [PNoFrontrunners]
                 | fs => (λ '(who, support), PFrontrunner who support) <$> fs
                 end
              ++ (PPreviousHeader
                  :: ((λ '(who, count), PPreviousVotes who count) <$> votes)
                  ++ [PPreviousVote v])
              ++ PEligibleHeader :: (PEligible <$> eligible)
              ++ [PInstructions].
Proof.
  destruct (run_voting_round_votes turns self)
    as (self' & votes & vs & Hrun & Hlen & Hcs & _ & Hrn & Hledger & Hfr & _).
  exists self', votes. split; [exact Hrun|]. intros c' Hc'.
  rewrite Hcs in Hc'. apply list_elem_of_lookup in Hc' as [i Hi].
  apply lookup_zip_with_Some in Hi as (c & v & -> & _ & _).
  exists v. split; [cbn; by rewrite last_snoc|].
  unfold get_voting_prompt.
  change (round_number (next_round self')) with (round_number self' + 1).
  change (round_results (next_round self')) with (round_results self').
  change (frontrunners (next_round self')) with (frontrunners self').
  rewrite Hrn, Hfr, Hledger.
  replace (round_number self + 1 + 1 - 1) with (round_number self + 1) by lia.
  rewrite (get_after_save (outcome_of self votes)).
  cbn [voting_history save_vote]. rewrite last_snoc. done.
Qed.
End PromptClaims.

(** ** White space around a reply *)

Section SpaceClaims.
Context `{UnicodeData}.

Lemma py_split_go_trailing (ws : str) :
  Forall (λ d, uc_isspace d = true) ws →
  ∀ s cur, py_split_go cur (s ++ ws) = py_split_go cur s.
Proof.
  intros Hws.
  assert (Hend : ∀ cur, py_split_go cur ws = py_split_go cur []).
  { induction Hws as [|d ws Hd _ IH]; intros cur; [done|].
    cbn. rewrite Hd. destruct cur; rewrite IH; done. }
  induction s as [|c s IH]; intros cur; [apply Hend|].
  cbn. destruct (uc_isspace c); [|apply IH]. destruct cur; by rewrite IH.
Qed.

Lemma stripped_blanks (ws : str) :
  Forall blank ws → Forall (λ d, uc_isspace d = true) (stripped ws).
Proof.
  induction 1 as [|w ws Hw _ IH]; [by apply Forall_nil|].
  rewrite (stripped_blank w ws Hw). apply Forall_app. split; [|done].
  destruct Hw as [_ Hw]. eapply Forall_impl; [exact Hw|]. by intros d [? _].
Qed.

Lemma find_matching_by_normal_form (cs : list Cardinal) (a b : str) :
  normalize_name a = normalize_name b →
  find_matching_cardinal cs a = find_matching_cardinal cs b.
Proof.
  intros Heq. induction cs as [|c cs IH]; [done|]. cbn.
  rewrite Heq, IH. done.
Qed.

(** X17.  White space before and after a text does not change its normal
    form, so a reply resolves to the same roster name with or without
    it. *)
Theorem surrounding_space_is_ignored (cs : list Cardinal) (raw ws ws' : str) :
  Forall blank ws → Forall blank ws' →
  normalize_name (ws ++ raw ++ ws') = normalize_name raw
  ∧ find_matching_cardinal cs (ws ++ raw ++ ws')
    = find_matching_cardinal cs raw.
Proof.
  intros Hws Hws'.
  assert (Hn : normalize_name (ws ++ raw ++ ws') = normalize_name raw).
  { rewrite !normalize_name_stripped, !stripped_app. unfold py_split.
    rewrite py_split_go_blanks by by apply stripped_blanks.
    by rewrite py_split_go_trailing by by apply stripped_blanks. }
  split; [exact Hn|]. by apply find_matching_by_normal_form.
Qed.
End SpaceClaims.

Lemma surrounding_space_is_ignored_witness :
  find_matching_cardinal (H := sample_unicode)
    [cardinal_of "Pietro" []; cardinal_of "Jose Maria" []]
    ([32; 10]%N ++ u "jose maria" ++ [10]%N)
  = Some (u "Jose Maria").
Proof.
  assert (Hb : ∀ w, w = 32%N ∨ w = 10%N → blank (H := sample_unicode) w).
  { intros w [->| ->]; (split; [discriminate|]);
      (apply Forall_cons; split; [done | by apply Forall_nil]). }
  rewrite (proj2 (surrounding_space_is_ignored (H := sample_unicode)
                    [cardinal_of "Pietro" []; cardinal_of "Jose Maria" []]
                    (u "jose maria") [32; 10]%N [10]%N
                    (Forall_cons_2 _ _ _ (Hb _ (or_introl eq_refl))
                       (Forall_cons_2 _ _ _ (Hb _ (or_intror eq_refl))
                          (Forall_nil_2 _)))
                    (Forall_cons_2 _ _ _ (Hb _ (or_intror eq_refl))
                       (Forall_nil_2 _)))).
  vm_compute. reflexivity.
Defined.

(** ** The profile store *)

Section StoreClaims.
Context `{Storage}.

(** X18.  Loading the roster raises exactly when, for some manifest
    entry, the bio file is missing or is not utf-8 text, or the history
    file is there but is not utf-8 text or does not parse as a list of
    records.  When it succeeds the cardinals come in the order of the
    manifest, each with the name and leaning of its entry, the text of its
    bio file and the records parsed from its history file, and with an
    empty history when that file is missing; two entries whose history
    paths name one file get the same history. *)
Theorem load_cardinals_raises_iff (manifest : list ManifestEntry)
    (disk : Disk) :
  (load_cardinals manifest disk = None
   ↔ ∃ entry, entry ∈ manifest
       ∧ (disk !! locate (me_bio_file entry) = None
          ∨ disk !! locate (me_bio_file entry) = Some NotUtf8
          ∨ disk !! locate (me_voting_history_file entry) = Some NotUtf8
          ∨ ∃ text,
              disk !! locate (me_voting_history_file entry) = Some (Utf8 text)
              ∧ json_load text = None))
  ∧ ∀ cs, load_cardinals manifest disk = Some cs →
      Forall2 (λ entry c,
          name c = me_name entry
          ∧ political_leaning c = me_political_leaning entry
          ∧ disk !! locate (me_bio_file entry) = Some (Utf8 (bio c))
          ∧ match disk !! locate (me_voting_history_file entry) with
            | Some (Utf8 text) => json_load text = Some (voting_history c)
            | Some NotUtf8 => False
            | None => voting_history c = []
            end)
        manifest cs
      ∧ ∀ i j e1 e2 c1 c2,
          manifest !! i = Some e1 → manifest !! j = Some e2 →
          cs !! i = Some c1 → cs !! j = Some c2 →
          locate (me_voting_history_file e1) = locate (me_voting_history_file e2) →
          voting_history c1 = voting_history c2.
Proof.
  assert (Hone : ∀ entry c, load_cardinal entry disk = Some c →
    name c = me_name entry
    ∧ political_leaning c = me_political_leaning entry
    ∧ disk !! locate (me_bio_file entry) = Some (Utf8 (bio c))
    ∧ match disk !! locate (me_voting_history_file entry) with
      | Some (Utf8 text) => json_load text = Some (voting_history c)
      | Some NotUtf8 => False
      | None => voting_history c = []
      end).
  { intros entry c. unfold load_cardinal, load_bio, load_voting_history.
    destruct (disk !! locate (me_bio_file entry)) as [[text|]|]; [|done|done].
    cbn [mbind option_bind].
    destruct (disk !! locate (me_voting_history_file entry)) as [[json|]|];
      [|done|].
    - destruct (json_load json) as [records|]; [|done].
      intros [= <-]. done.
    - intros [= <-]. done. }
  unfold load_cardinals. split.
  - rewrite mapM_None, Exists_exists. split.
    + intros (entry & Hin & Hload). exists entry. split; [done|].
      revert Hload. unfold load_cardinal, load_bio, load_voting_history.
      destruct (disk !! locate (me_bio_file entry)) as [[text|]|];
        [|by auto|by auto].
      cbn [mbind option_bind].
      destruct (disk !! locate (me_voting_history_file entry)) as [[json|]|];
        [|by auto|done].
      destruct (json_load json) as [records|] eqn:Hjson; [done|].
      intros _. right; right; right. by exists json.
    + intros (entry & Hin & Hbad). exists entry. split; [done|].
      unfold load_cardinal, load_bio, load_voting_history.
      destruct Hbad as [Hb|[Hb|[Hh|(json & Hh & Hjson)]]].
      * by rewrite Hb.
      * by rewrite Hb.
      * rewrite Hh. by destruct (disk !! locate (me_bio_file entry)) as [[?|]|].
      * rewrite Hh, Hjson.
        by destruct (disk !! locate (me_bio_file entry)) as [[?|]|].
  - intros cs Hcs%mapM_Some_1. split.
    + eapply Forall2_impl; [exact Hcs|]. exact Hone.
    + intros i j e1 e2 c1 c2 He1 He2 Hc1 Hc2 Hsame.
      pose proof (Forall2_lookup_lr _ _ _ _ _ _ Hcs He1 Hc1) as H1.
      pose proof (Forall2_lookup_lr _ _ _ _ _ _ Hcs He2 Hc2) as H2.
      apply Hone in H1 as (_ & _ & _ & H1).
      apply Hone in H2 as (_ & _ & _ & H2).
      rewrite Hsame in H1.
      destruct (disk !! locate (me_voting_history_file e2)) as [[json|]|];
        [|done|]; congruence.
Qed.

(** X19.  [save_vote] appends the record to the history in memory and
    leaves in the history file the dump of the whole history, whatever the
    file held before: the history loads back from any path that names
    that file, and no other file changes.  When the bio is kept in
    another file, loading the same manifest entry gives the cardinal back;
    when the bio path names the history file, the bio that loads is the
    dump of the history. *)
Theorem saved_vote_survives_reload (entry : ManifestEntry) (disk : Disk)
    (c : Cardinal) (rn : Z) (v : str) :
  name c = me_name entry →
  political_leaning c = me_political_leaning entry →
  load_bio (me_bio_file entry) disk = Some (bio c) →
  ∃ c' disk',
    save_vote_to (me_voting_history_file entry) c rn v disk = (c', disk')
    ∧ name c' = name c ∧ bio c' = bio c
    ∧ political_leaning c' = political_leaning c
    ∧ voting_history c'
      = voting_history c ++ [{| vr_round := rn; voted_for := v |}]
    ∧ (∀ path, locate path = locate (me_voting_history_file entry) →
         load_voting_history path disk' = Some (voting_history c')
         ∧ load_bio path disk' = Some (json_dump (voting_history c')))
    ∧ (∀ path, locate path ≠ locate (me_voting_history_file entry) →
         load_voting_history path disk' = load_voting_history path disk
         ∧ load_bio path disk' = load_bio path disk)
    ∧ (locate (me_bio_file entry) ≠ locate (me_voting_history_file entry) →
       load_cardinal entry disk' = Some c')
    ∧ (locate (me_bio_file entry) = locate (me_voting_history_file entry) →
       ∃ reloaded,
         load_cardinal entry disk' = Some reloaded
         ∧ bio reloaded = json_dump (voting_history c')
         ∧ voting_history reloaded = voting_history c').
Proof.
  intros Hname Hleaning Hbio. unfold save_vote_to. eexists _, _.
  split; [reflexivity|]. cbn [save_vote name bio political_leaning
                              voting_history].
  set (history := voting_history c ++ [{| vr_round := rn; voted_for := v |}]).
  split; [done|]. split; [done|]. split; [done|]. split; [done|].
  assert (Hsame : ∀ path,
    locate path = locate (me_voting_history_file entry) →
    load_voting_history path
      (<[locate (me_voting_history_file entry) := Utf8 (json_dump history)]>
         disk) = Some history
    ∧ load_bio path
        (<[locate (me_voting_history_file entry) := Utf8 (json_dump history)]>
           disk) = Some (json_dump history)).
  { intros path Hpath. unfold load_voting_history, load_bio.
    rewrite Hpath, lookup_insert_eq. split; [apply json_load_dump | done]. }
  assert (Hother : ∀ path,
    locate path ≠ locate (me_voting_history_file entry) →
    load_voting_history path
      (<[locate (me_voting_history_file entry) := Utf8 (json_dump history)]>
         disk) = load_voting_history path disk
    ∧ load_bio path
        (<[locate (me_voting_history_file entry) := Utf8 (json_dump history)]>
           disk) = load_bio path disk).
  { intros path Hpath. unfold load_voting_history, load_bio.
    by rewrite lookup_insert_ne. }
  split; [exact Hsame|]. split; [exact Hother|].
  destruct (Hsame (me_voting_history_file entry) eq_refl) as [Hhist _].
  split.
  - intros Hapart. unfold load_cardinal.
    rewrite (proj2 (Hother _ Hapart)), Hbio. cbn [mbind option_bind].
    rewrite Hhist. cbn [mbind option_bind]. by rewrite <- Hname, <- Hleaning.
  - intros Hshared. eexists. unfold load_cardinal.
    rewrite (proj2 (Hsame _ Hshared)). cbn [mbind option_bind].
    rewrite Hhist. cbn [mbind option_bind]. done.
Qed.
End StoreClaims.

Lemma saved_vote_survives_reload_witness :
  ∃ c' disk',
    save_vote_to (H := sample_storage) (u "a_voting_history.json")
      (cardinal_of "A" []) 1 (u "B") {[ u "a_bio.txt" := Utf8 (u "") ]}
    = (c', disk')
    ∧ voting_history c' = [{| vr_round := 1; voted_for := u "B" |}]
    ∧ load_cardinal (H := sample_storage)
        {| me_name := u "A"; me_bio_file := u "a_bio.txt";
           me_voting_history_file := u "a_voting_history.json";
           me_political_leaning := 0 |} disk'
      = Some c'.
Proof.
  assert (Hbio : load_bio (H := sample_storage) (u "a_bio.txt")
                   {[ u "a_bio.txt" := Utf8 (u "") ]} = Some (u "")).
  { unfold load_bio. cbn [locate sample_storage]. unfold id.
    by rewrite lookup_singleton_eq. }
  destruct (saved_vote_survives_reload (H := sample_storage)
              {| me_name := u "A"; me_bio_file := u "a_bio.txt";
                 me_voting_history_file := u "a_voting_history.json";
                 me_political_leaning := 0 |}
              {[ u "a_bio.txt" := Utf8 (u "") ]}
              (cardinal_of "A" []) 1 (u "B") eq_refl eq_refl Hbio)
    as (c' & disk' & Hsave & _ & _ & _ & Hhist & _ & _ & Hreload & _).
  exists c', disk'. split; [exact Hsave|]. split; [exact Hhist|].
  apply Hreload. cbn [locate sample_storage me_bio_file
                      me_voting_history_file]. unfold id.
  by_evaluation.
Defined.

(** ** Rounds in sequence *)

Section SequenceClaims.
Context `{UnicodeData}.

(** One round keeps the votes within the roster. *)
Lemma round_within_roster (turns : nat → Turn) (self : Conclave) :
  Forall (history_within (name <$> cardinals self)) (cardinals self) →
  frontrunners_within (name <$> cardinals self) self →
  ∃ self' votes,
    run_voting_round turns self = Some (self', votes)
    ∧ py_sum (dict_values votes) = Z.of_nat (length (cardinals self))
    ∧ dict_keys votes ⊆ name <$> cardinals self
    ∧ name <$> cardinals self' = name <$> cardinals self
    ∧ Forall (history_within (name <$> cardinals self')) (cardinals self')
    ∧ frontrunners_within (name <$> cardinals self') self'.
Proof.
  intros Hhist Hfront.
  destruct (run_voting_round_spec turns self)
    as (cs & votes & _ & Hrun & Hsaved & Hsum & Hok & Hkeys).
  specialize (Hkeys Hhist Hfront).
  pose proof (saved_names _ _ _ _ Hsaved) as Hnames.
  eexists _, votes. split; [exact Hrun|]. cbn [cardinals frontrunners].
  split; [done|]. split; [done|]. split; [done|]. rewrite Hnames. split.
  - by apply (saved_history_within _ _ _ _ _ Hsaved).
  - intros p Hp. cbn [frontrunners] in Hp.
    by apply Hkeys, (spec_frontrunners_keys _ _ _ Hp).
Qed.

(** X20.  In a simulation whose cardinals start with votes of the roster
    (or with no history) and with frontrunners of the roster (or none),
    every round of any number of rounds counts one vote per cardinal and
    only names of the roster, and the roster never changes. *)
Theorem rounds_stay_within_roster (turns : nat → nat → Turn) (n : nat) :
  ∀ (start : nat) (self : Conclave),
  Forall (history_within (name <$> cardinals self)) (cardinals self) →
  frontrunners_within (name <$> cardinals self) self →
  ∃ final tallies,
    run_rounds turns start n self = Some (final, tallies)
    ∧ length tallies = n
    ∧ Forall (λ votes,
        py_sum (dict_values votes) = Z.of_nat (length (cardinals self))
        ∧ dict_keys votes ⊆ name <$> cardinals self) tallies
    ∧ name <$> cardinals final = name <$> cardinals self
    ∧ Forall (history_within (name <$> cardinals final)) (cardinals final)
    ∧ frontrunners_within (name <$> cardinals final) final.
Proof.
  induction n as [|n IH]; intros start self Hhist Hfront.
  - exists self, []. cbn. split; [done|]. split; [done|].
    split; [by apply Forall_nil|]. done.
  - destruct (round_within_roster (turns start) self Hhist Hfront)
      as (self' & votes & Hrun & Hsum & Hkeys & Hnames & Hhist' & Hfront').
    destruct (IH (S start) self' Hhist' Hfront')
      as (final & tallies & Hrest & Hlen & Hall & Hnames2 & Hhist2 & Hfront2).
    exists final, (votes :: tallies). cbn [run_rounds]. rewrite Hrun.
    cbn [mbind option_bind]. rewrite Hrest.
    split; [done|]. split; [by cbn; rewrite Hlen|].
    assert (Hsize : length (cardinals self') = length (cardinals self)).
    { by rewrite <- (length_fmap name), Hnames, length_fmap. }
    split; [|split; [by rewrite Hnames2, Hnames | done]].
    apply Forall_cons. split; [done|].
    eapply Forall_impl; [exact Hall|]. cbn. intros tally [Hs Hk].
    by rewrite <- Hsize, <- Hnames.
Qed.

(** The ledger stays one that [save_round_result] wrote. *)
Lemma get_latest_after_save (r : RoundResult) (dir : gmap str RoundResult)
    (listing : list str) :
  ledger_written dir →
  (∀ f r', dir !! f = Some r' → rr_round_number r' ≤ rr_round_number r) →
  listing ≡ₚ (map_to_list (save_round_result r dir)).*1 →
  get_latest_round_result_in listing (save_round_result r dir) = Some (Some r).
Proof.
  intros Hw Hmax Hp.
  destruct (get_latest_spec (save_round_result r dir) listing
              (ledger_written_save r dir Hw) Hp) as [_ Hlatest].
  destruct Hlatest as (r0 & Hr0 & Hget & Hle).
  { unfold save_round_result. apply insert_non_empty. }
  rewrite Hr0. do 2 f_equal.
  assert (Hr : save_round_result r dir !! file_name (rr_round_number r) = Some r)
    by apply lookup_insert_eq.
  specialize (Hle _ _ Hr).
  destruct (decide (rr_round_number r0 = rr_round_number r)) as [Heq|Hne].
  - rewrite Heq in Hget. unfold get_round_result in Hget. congruence.
  - rewrite get_after_other_save in Hget by done.
    specialize (Hmax _ _ Hget). lia.
Qed.

(** X21.  On a ledger written by earlier rounds that holds no round number
    beyond the one being run, the latest outcome after a round is the
    outcome of that round, with the tally the round returned; the ledger
    stays one written by [save_round_result], with no round number beyond
    the new one. *)
Theorem latest_is_the_round_just_run (turns : nat → Turn) (self : Conclave) :
  ledger_written (round_results self) →
  (∀ f r', round_results self !! f = Some r' →
           rr_round_number r' ≤ round_number self + 1) →
  ∃ self' votes r,
    run_voting_round turns self = Some (self', votes)
    ∧ rr_round_number r = round_number self'
    ∧ rr_votes r = votes
    ∧ (∀ listing, listing ≡ₚ (map_to_list (round_results self')).*1 →
         get_latest_round_result_in listing (round_results self')
         = Some (Some r))
    ∧ ledger_written (round_results self')
    ∧ ∀ f r', round_results self' !! f = Some r' →
              rr_round_number r' ≤ round_number self'.
Proof.
  intros Hw Hmax.
  destruct (run_voting_round_spec turns self) as (cs & votes & _ & Hrun & _).
  eexists _, votes, (outcome_of self votes). split; [exact Hrun|].
  cbn [round_number round_results]. split; [done|]. split; [done|].
  split; [|split].
  - intros listing Hp. by apply get_latest_after_save.
  - by apply ledger_written_save.
  - intros f r'. unfold save_round_result.
    destruct (decide (file_name (rr_round_number (outcome_of self votes)) = f))
      as [<-|Hne].
    + rewrite lookup_insert_eq. intros [= <-]. cbn. lia.
    + rewrite lookup_insert_ne by done. apply Hmax.
Qed.
End SequenceClaims.

Lemma rounds_stay_within_roster_witness :
  ∃ final tallies,
    run_rounds (H := sample_unicode) (λ _, oracle_says "nobody") 0 3
      three_cardinals = Some (final, tallies)
    ∧ Forall (λ votes, py_sum (dict_values votes) = 3
                       ∧ dict_keys votes ⊆ [u "A"; u "B"; u "C"]) tallies.
Proof.
  destruct (rounds_stay_within_roster (H := sample_unicode)
              (λ _, oracle_says "nobody") 3 0 three_cardinals)
    as (final & tallies & Hrun & _ & Hall & _).
  - repeat (apply Forall_cons; split; [by intros rec|]). by apply Forall_nil.
  - by intros p ?%elem_of_nil.
  - exists final, tallies. split; [exact Hrun | exact Hall].
Defined.

Lemma latest_is_the_round_just_run_witness :
  ∃ self' votes r,
    run_voting_round (H := sample_unicode) (oracle_says "a") three_cardinals
    = Some (self', votes)
    ∧ rr_votes r = votes
    ∧ get_latest_round_result (round_results self') = Some (Some r).
Proof.
  destruct (latest_is_the_round_just_run (H := sample_unicode)
              (oracle_says "a") three_cardinals)
    as (self' & votes & r & Hrun & _ & Hvotes & Hlatest & _).
  - apply ledger_written_empty.
  - intros f r'. cbn. by rewrite lookup_empty.
  - exists self', votes, r. split; [exact Hrun|]. split; [exact Hvotes|].
    by apply Hlatest.
Defined.
